(** * soe_webhooks: the webhook description parser

    A shallow embedding of [process_webhooks] and [strip_html] from
    [soe_webhooks.py], together with the Python [str] operations they call,
    and the properties of the parser that follow from the code. *)

From Stdlib Require Import NArith Ascii String.
From stdpp Require Import base option list.

Local Open Scope N_scope.

(** ** Python strings

    A Python [str] is a sequence of Unicode code points; a code point is a
    number.  A raised [IndexError] is [None] in the option monad. *)

Abbreviation char := N.
Abbreviation str := (list N).

(** String literals of the source, written as Rocq strings (ASCII only). *)
Definition lit (s : string) : str := map N_of_ascii (list_ascii_of_string s).

(** [s.startswith(p)] *)
Fixpoint startswith (p s : str) : bool :=
  match p, s with
  | [], _ => true
  | _ :: _, [] => false
  | a :: p', b :: s' => (a =? b) && startswith p' s'
  end.

(** [p in s] *)
Fixpoint contains (p s : str) : bool :=
  startswith p s ||
  match s with
  | [] => false
  | _ :: s' => contains p s'
  end.

(** [s.split(sep)] for a nonempty [sep], scanning left to right for
    non-overlapping occurrences.  [skip] counts the characters of a matched
    separator still to be passed over, [cur] holds the current piece in
    reverse. *)
Fixpoint split_go (sep : str) (skip : nat) (cur s : str) : list str :=
  match s with
  | [] => [rev cur]
  | c :: s' =>
      match skip with
      | S k => split_go sep k cur s'
      | O =>
          if startswith sep s
          then rev cur :: split_go sep (length sep - 1) [] s'
          else split_go sep 0 (c :: cur) s'
      end
  end.

Definition split (sep s : str) : list str := split_go sep 0 [] s.

(** [s.replace(old, '')]: every non-overlapping occurrence of [old], found
    left to right, is deleted.  Python leaves [s] as it is when [old] is
    empty and the replacement is empty too. *)
Fixpoint remove_go (old : str) (skip : nat) (s : str) : str :=
  match s with
  | [] => []
  | c :: s' =>
      match skip with
      | S k => remove_go old k s'
      | O =>
          if startswith old s
          then remove_go old (length old - 1) s'
          else c :: remove_go old 0 s'
      end
  end.

Definition remove (old s : str) : str :=
  match old with
  | [] => s
  | _ :: _ => remove_go old 0 s
  end.

(** [c.isspace()], the characters [str.strip()] removes. *)
Definition isspace (c : char) : bool :=
  ((9 <=? c) && (c <=? 13)) || ((28 <=? c) && (c <=? 32)) ||
  (c =? 133) || (c =? 160) || (c =? 5760) ||
  ((8192 <=? c) && (c <=? 8202)) ||
  (c =? 8232) || (c =? 8233) || (c =? 8239) || (c =? 8287) || (c =? 12288).

Fixpoint lstrip (s : str) : str :=
  match s with
  | [] => []
  | c :: s' => if isspace c then lstrip s' else s
  end.

Definition rstrip (s : str) : str := rev (lstrip (rev s)).

(** [s.strip()] *)
Definition strip (s : str) : str := rstrip (lstrip s).

(** ** The regular expression [<[^<]+?>]

    A match starts at a [<], takes one character that is not [<], then lazily
    more characters that are not [<], up to the first [>] that follows.
    [tag_scan] runs after the first character of the class; [tag_len s] is
    the number of characters of the match that follow the opening [<] when
    [s] is the text after it. *)
Definition lt_sign : char := 60.
Definition gt_sign : char := 62.

Fixpoint tag_scan (s : str) : option nat :=
  match s with
  | [] => None
  | c :: s' =>
      if c =? gt_sign then Some 1%nat
      else if c =? lt_sign then None
      else S <$> tag_scan s'
  end.

Definition tag_len (s : str) : option nat :=
  match s with
  | [] => None
  | c :: s' => if c =? lt_sign then None else S <$> tag_scan s'
  end.

(** [re.sub('<[^<]+?>', '', s)] *)
Fixpoint sub_tags (skip : nat) (s : str) : str :=
  match s with
  | [] => []
  | c :: s' =>
      match skip with
      | S k => sub_tags k s'
      | O =>
          match (if c =? lt_sign then tag_len s' else None) with
          | Some n => sub_tags n s'
          | None => c :: sub_tags 0 s'
          end
      end
  end.

(** ** strip_html and the clean-up of the description column *)

Definition newline : char := 10.
Definition carriage_return : char := 13.

Definition strip_html (text : str) : str :=
  strip (remove [carriage_return] (remove [newline] (sub_tags 0 text))).

(** [strip_html(columns[2].text).replace('(added via synonyms) ', '').replace(',', '')] *)
Definition normalize (text : str) : str :=
  remove (lit ",") (remove (lit "(added via synonyms) ") (strip_html text)).

(** ** process_webhooks *)

Definition activity_types : list str :=
  [lit "edited questions"; lit "updated answers"; lit "accepted answers";
   lit "questions"; lit "answers"; lit "comments"].

(** The three fields the description decides. *)
Record parsed := Parsed {
  channel : str;
  tags : list str;
  activities : list str
}.

(** One turn of [for activity_type in activity_types], on the pair of
    [activities] and [description]. *)
Definition scan_step (st : list str * str) (activity_type : str)
  : list str * str :=
  let '(activities, description) := st in
  if contains activity_type description
  then (activities ++ [activity_type],
        strip (remove activity_type description))
  else st.

Definition scan (description : str) : list str * str :=
  foldl scan_step ([], description) activity_types.

(** The body of the loop of [process_webhooks] from the normalised
    description on: which branch is taken and what each split yields.  An
    index past the end of a split raises [IndexError], here [None].  On the
    two all-activity paths [activities] is bound to the list [activity_types]
    itself; nothing changes that list afterwards, so its value stands for
    it. *)
Definition parse_description (description : str) : option parsed :=
  if startswith (lit "All post activity to") description then
    channel ← split (lit "All post activity to ") description !! 1%nat;
    Some (Parsed channel [lit "all"] activity_types)
  else
    description ← split (lit "Any ") description !! 1%nat;
    channel ← split (lit " to ") description !! 1%nat;
    if contains (lit "posts to") description then
      before ← split (lit " posts to ") description !! 0%nat;
      Some (Parsed channel (split (lit " ") before) activity_types)
    else
      description ← split (lit " to ") description !! 0%nat;
      let '(activities, description) := scan description in
      match description with
      | _ :: _ => Some (Parsed channel (split (lit " ") description) activities)
      | [] => Some (Parsed channel [lit "all"] activities)
      end.

(** A table row: whether it holds a [th] cell, and the text of its [td]
    cells. *)
Record row := Row {
  has_th : bool;
  columns : list str
}.

Record webhook := Webhook {
  w_type : str;
  w_channel : str;
  w_tags : list str;
  w_activities : list str;
  w_creator : str;
  w_creation_date : str
}.

(** The loop over the rows: a header row is skipped, and an exception in any
    row ends the whole call. *)
Fixpoint process_webhooks (webhook_rows : list row) : option (list webhook) :=
  match webhook_rows with
  | [] => Some []
  | r :: rest =>
      if has_th r then process_webhooks rest
      else
        text ← columns r !! 2%nat;
        p ← parse_description (normalize text);
        type ← columns r !! 0%nat;
        creator ← columns r !! 3%nat;
        creation_date ← columns r !! 4%nat;
        webhooks ← process_webhooks rest;
        Some (Webhook (strip_html type) (channel p) (tags p) (activities p)
                      creator creation_date :: webhooks)
  end.

(** ** get_page_count and get_webhooks

    The pages come from the network: [pagination] is the list of the texts
    of the pagination links of the first page, [fetch page] the list of table
    rows of a page, each [None] when the request gave no response (the
    attribute access on [None] raises), and [int] is the conversion of a text
    to an integer, [None] where it raises [ValueError]. *)

(** [pagination[-2]] exists when there are two links at least; the
    [IndexError] is caught and gives one page. *)
Definition get_page_count (int : str -> option Z)
    (pagination : option (list str)) : option Z :=
  links ← pagination;
  match rev links with
  | _ :: text :: _ => int text
  | _ => Some 1%Z
  end.

(** [for page in range(1, page_count + 1)], on the accumulated
    [webhooks]. *)
Fixpoint get_webhooks_pages (fetch : Z -> option (list row))
    (pages : list Z) (webhooks : list webhook) : option (list webhook) :=
  match pages with
  | [] => Some webhooks
  | page :: pages' =>
      webhook_rows ← fetch page;
      found ← process_webhooks webhook_rows;
      get_webhooks_pages fetch pages' (webhooks ++ found)
  end.

Definition get_webhooks (int : str -> option Z)
    (pagination : option (list str))
    (fetch : Z -> option (list row)) : option (list webhook) :=
  page_count ← get_page_count int pagination;
  get_webhooks_pages fetch (seqZ 1 page_count) [].

(** ** export_webhooks_to_csv *)

(** [s.strip(chars)]: the characters of [chars] are removed from both
    ends. *)
Definition in_chars (chars : str) (c : char) : bool :=
  existsb (N.eqb c) chars.

Fixpoint lstrip_chars (chars s : str) : str :=
  match s with
  | [] => []
  | c :: s' => if in_chars chars c then lstrip_chars chars s' else s
  end.

Definition rstrip_chars (chars s : str) : str :=
  rev (lstrip_chars chars (rev s)).

Definition strip_chars (chars s : str) : str :=
  rstrip_chars chars (lstrip_chars chars s).

(** The cell of a list field: every element followed by ", ", then commas
    and spaces stripped from both ends. *)
Definition list_cell (attribute : list str) : str :=
  strip_chars (lit ", ")
    (foldl (fun tag_row tag => tag_row ++ tag ++ lit ", ") [] attribute).

Definition csv_header : list str :=
  [lit "type"; lit "channel"; lit "tags"; lit "activities"; lit "creator";
   lit "creation_date"].

Definition row_data (w : webhook) : list str :=
  [w_type w; w_channel w; list_cell (w_tags w); list_cell (w_activities w);
   w_creator w; w_creation_date w].

(** The rows handed to the CSV writer, the header first.  [webhooks[0]] is
    read before the file is opened and raises [IndexError] on an empty
    list. *)
Definition export_webhooks_to_csv (webhooks : list webhook)
  : option (list (list str)) :=
  match webhooks with
  | [] => None
  | _ :: _ => Some (csv_header :: map row_data webhooks)
  end.

(** ** Definitions used in the statements and proofs *)

(** [nomatch p a r]: in the text [a ++ r], no occurrence of [p] starts at a
    position inside [a]. *)
Fixpoint nomatch (p a r : str) : bool :=
  match a with
  | [] => true
  | _ :: a' => negb (startswith p (a ++ r)) && nomatch p a' r
  end.

(** Put [x] in front of the first piece. *)
Definition prepend (x : str) (l : list str) : list str :=
  match l with
  | [] => [x]
  | h :: t => (x ++ h) :: t
  end.

(** A pattern [p] cannot start inside [a] when [a] is followed by [q] and
    every overlap of [p] with the boundary would put [x] inside [a]. *)
Definition borders_ok (p q x : str) : bool :=
  forallb (fun k => negb (startswith (drop k p) q) || contains x (take k p))
          (seq 1 (length p - 1)).

(** *** Texts made of words and spaces

    The body of an explicit description is a run of words with spaces
    between them; the proofs follow it as a list of pieces, each either the
    one-space piece [sp] or a word (a tag or a vocabulary phrase). *)

Definition space : char := 32.
Definition sp : str := [space].

(** The pieces of [" ".join(ws)]. *)
Fixpoint spaced (ws : list str) : list str :=
  match ws with
  | [] => []
  | w :: ws' =>
      match ws' with
      | [] => [w]
      | _ :: _ => w :: sp :: spaced ws'
      end
  end.

Definition join (ws : list str) : str := concat (spaced ws).

(** What may follow a word: the end of the text, or a space. *)
Definition gap (r : str) : bool :=
  match r with
  | [] => true
  | c :: _ => c =? space
  end.

(** Could [p] start at the head of [w] when [w] is followed by a gap? *)
Definition clash_at (p w : str) : bool :=
  if decide (length p <= length w)%nat then startswith p w
  else startswith w p && gap (drop (length w) p).

(** [p] starts nowhere inside the word [w], whatever gap follows. *)
Fixpoint noclashb (p w : str) : bool :=
  match w with
  | [] => true
  | _ :: w' => negb (clash_at p w) && noclashb p w'
  end.

(** Each phrase is clear of every phrase listed after it. *)
Fixpoint ordered_noclash (vs : list str) : bool :=
  match vs with
  | [] => true
  | p :: vs' => forallb (noclashb p) vs' && ordered_noclash vs'
  end.

(** The text up to the first space. *)
Fixpoint first_word (p : str) : str :=
  match p with
  | [] => []
  | c :: p' => if c =? space then [] else c :: first_word p'
  end.

(** A word that [strip] leaves alone: not empty, no white space at either
    end. *)
Definition solidb (w : str) : bool :=
  match w, last w with
  | c :: _, Some e => negb (isspace c) && negb (isspace e)
  | _, _ => false
  end.

(** Dropping the space pieces at the left and at the right end. *)
Fixpoint ldrop (l : list str) : list str :=
  match l with
  | [] => []
  | x :: l' => if decide (x = sp) then ldrop l' else l
  end.

Fixpoint rdrop (l : list str) : list str :=
  match l with
  | [] => []
  | x :: l' =>
      match rdrop l' with
      | [] => if decide (x = sp) then [] else [x]
      | y :: k => x :: y :: k
      end
  end.

Definition strip_pieces (l : list str) : list str := rdrop (ldrop l).

(** No two words are adjacent. *)
Fixpoint alt (l : list str) : Prop :=
  match l with
  | [] => True
  | x :: l' =>
      match l' with
      | [] => True
      | y :: _ => x = sp \/ y = sp
      end /\ alt l'
  end.

(** Neither end is a space piece. *)
Definition tight (l : list str) : Prop :=
  head l <> Some sp /\ last l <> Some sp.

(** The tags the explicit-activities form is stated for: not empty, free of
    white space, not the word "to", without "Any" and without the first word
    of any vocabulary phrase (edited, updated, accepted, questions, answers,
    comments) inside. *)
Definition good_tag (t : str) : bool :=
  negb (bool_decide (t = [])) &&
  forallb (fun c => negb (isspace c)) t &&
  negb (bool_decide (t = lit "to")) &&
  negb (contains (lit "Any") t) &&
  forallb (fun p => negb (contains (first_word p) t)) activity_types.

(** What is left of the body while the vocabulary is scanned: the tags
    [ts], one space apart, followed by [tail], which holds spaces and those
    phrases of [ps] whose turn in [vs] is still to come. *)
Definition left_over (ts ps vs tail : list str) : Prop :=
  Forall (fun x => x = sp \/ (x ∈ ps /\ x ∈ vs)) tail /\
  alt (spaced ts ++ tail) /\
  tight (spaced ts ++ tail) /\
  (forall q, q ∈ ps -> q ∈ vs -> q ∈ tail).

(** [sep.join(l)] *)
Fixpoint str_join (sep : str) (l : list str) : str :=
  match l with
  | [] => []
  | x :: l' =>
      match l' with
      | [] => x
      | _ :: _ => x ++ sep ++ str_join sep l'
      end
  end.

(** Dropping the empty texts at the left and at the right end of a list. *)
Fixpoint ldrop_empty (l : list str) : list str :=
  match l with
  | [] => []
  | x :: l' => match x with [] => ldrop_empty l' | _ :: _ => l end
  end.

Fixpoint rdrop_empty (l : list str) : list str :=
  match l with
  | [] => []
  | x :: l' =>
      match rdrop_empty l', x with
      | [], [] => []
      | k, _ => x :: k
      end
  end.

(** A text with no comma and no space at either end (it may be empty). *)
Definition clean_ends (w : str) : bool :=
  match w, last w with
  | c :: _, Some e => negb (in_chars (lit ", ") c) && negb (in_chars (lit ", ") e)
  | _, _ => true
  end.

(** One turn of the loop of [process_webhooks] on a row without [th]. *)
Definition row_webhook (r : row) : option webhook :=
  text ← columns r !! 2%nat;
  p ← parse_description (normalize text);
  type ← columns r !! 0%nat;
  creator ← columns r !! 3%nat;
  creation_date ← columns r !! 4%nat;
  Some (Webhook (strip_html type) (channel p) (tags p) (activities p)
                creator creation_date).

(** The record [w] is the one the row [r] stands for. *)
Definition webhook_of_row (r : row) (w : webhook) : Prop :=
  (exists type, columns r !! 0%nat = Some type /\ w_type w = strip_html type) /\
  (exists text, columns r !! 2%nat = Some text /\
     parse_description (normalize text) =
     Some (Parsed (w_channel w) (w_tags w) (w_activities w))) /\
  columns r !! 3%nat = Some (w_creator w) /\
  columns r !! 4%nat = Some (w_creation_date w).

(** ** Facts about the string operations *)

Section StrFacts.

Implicit Types (p sep old s r a : str) (c : char).

Lemma startswith_spec p s : startswith p s = true <-> exists r, s = p ++ r.
Proof.
  revert s. induction p as [|x p IH]; intros [|y s]; simpl.
  - split; eauto.
  - split; eauto.
  - split; [discriminate | intros [r Hr]; discriminate].
  - rewrite andb_true_iff, N.eqb_eq, IH. split.
    + intros [-> [r ->]]. eauto.
    + intros [r Hr]. injection Hr as -> ->. eauto.
Qed.

Lemma startswith_self p r : startswith p (p ++ r) = true.
Proof. apply startswith_spec. eauto. Qed.

(** Where a prefix test lands when the text is a concatenation. *)
Lemma startswith_app p a r :
  startswith p (a ++ r) =
  if decide (length p <= length a)%nat then startswith p a
  else startswith a p && startswith (drop (length a) p) r.
Proof.
  revert p. induction a as [|y a IH]; intros [|x p]; simpl;
    try (repeat case_decide; simpl in *; first [done | lia]).
  rewrite IH. destruct (x =? y) eqn:E.
  - apply N.eqb_eq in E as ->. rewrite N.eqb_refl. simpl.
    repeat case_decide; try lia; done.
  - rewrite N.eqb_sym, E. simpl. repeat case_decide; done.
Qed.

Lemma contains_spec p s :
  contains p s = true <-> exists a b, s = a ++ p ++ b.
Proof.
  induction s as [|y s IH]; simpl.
  - rewrite orb_false_r, startswith_spec. split.
    + intros [r Hr]. exists [], r. done.
    + intros (a & b & H). symmetry in H.
      apply app_eq_nil in H as [-> H]. apply app_eq_nil in H as [-> ->].
      exists []. done.
  - rewrite orb_true_iff, startswith_spec, IH. split.
    + intros [[r ->] | (a & b & ->)].
      * exists [], r. done.
      * exists (y :: a), b. done.
    + intros (a & b & H). destruct a as [|z a]; simpl in H.
      * left. eauto.
      * injection H as -> ->. right. eauto.
Qed.

Lemma contains_here p r : contains p (p ++ r) = true.
Proof. apply contains_spec. exists [], r. done. Qed.

Lemma contains_app_l p a r : contains p r = true -> contains p (a ++ r) = true.
Proof.
  rewrite !contains_spec. intros (x & y & ->).
  exists (a ++ x), y. by rewrite <- app_assoc.
Qed.

Lemma contains_app_r p a r : contains p a = true -> contains p (a ++ r) = true.
Proof.
  rewrite !contains_spec. intros (x & y & ->).
  exists x, (y ++ r). by rewrite <- !app_assoc.
Qed.

Lemma contains_trans p q s :
  contains p q = true -> contains q s = true -> contains p s = true.
Proof.
  rewrite !contains_spec. intros (x & y & ->) (a & b & ->).
  exists (a ++ x), (y ++ b). by rewrite <- !app_assoc.
Qed.

Lemma not_contains_startswith p s :
  contains p s = false -> startswith p s = false.
Proof. destruct s; simpl; intros H; apply orb_false_iff in H; tauto. Qed.

Lemma not_contains_cons p c s :
  contains p (c :: s) = false -> contains p s = false.
Proof. simpl. intros H. apply orb_false_iff in H. tauto. Qed.

Lemma not_contains_app p a r :
  contains p (a ++ r) = false -> contains p a = false /\ contains p r = false.
Proof.
  intros H. split; apply not_true_is_false; intros E;
    [apply (contains_app_r _ _ r) in E | apply (contains_app_l _ a) in E];
    congruence.
Qed.

Lemma nomatch_app p a b r :
  nomatch p (a ++ b) r = nomatch p a (b ++ r) && nomatch p b r.
Proof.
  induction a as [|x a IH]; [done|].
  cbn [nomatch app]. by rewrite IH, <- !app_assoc, andb_assoc.
Qed.

Lemma nomatch_contains p a r :
  nomatch p a r = true -> contains p (a ++ r) = contains p r.
Proof.
  induction a as [|x a IH]; [done|].
  cbn [nomatch app contains]. intros [H1 H2]%andb_true_iff.
  apply negb_true_iff in H1. cbn [app] in H1. by rewrite H1, IH.
Qed.

Lemma not_contains_nomatch p a r :
  contains p (a ++ r) = false -> nomatch p a r = true.
Proof.
  induction a as [|x a IH]; [done|].
  cbn [nomatch app]. intros H. apply andb_true_iff. split.
  - apply negb_true_iff. by apply not_contains_startswith.
  - apply IH. by apply not_contains_cons in H.
Qed.

(** *** split *)

Lemma prepend_prepend x y l : prepend x (prepend y l) = prepend (x ++ y) l.
Proof. destruct l; simpl; by rewrite <- ?app_assoc. Qed.

Lemma split_go_skip sep k cur s :
  split_go sep k cur s = split_go sep 0 cur (drop k s).
Proof.
  revert k. induction s as [|c s IH]; intros [|k]; try done.
  cbn [split_go drop]. apply IH.
Qed.

Lemma split_go_cur sep cur s :
  split_go sep 0 cur s = prepend (rev cur) (split sep s).
Proof.
  unfold split. revert cur. induction s as [|c s IH]; intros cur.
  - simpl. by rewrite app_nil_r.
  - cbn [split_go]. destruct (startswith sep (c :: s)).
    + simpl. by rewrite app_nil_r.
    + rewrite (IH (c :: cur)), (IH [c]), prepend_prepend. done.
Qed.

Lemma split_nil sep : split sep [] = [[]].
Proof. done. Qed.

Lemma split_match sep r : sep <> [] -> split sep (sep ++ r) = [] :: split sep r.
Proof.
  destruct sep as [|x sep']; [done|]. intros _.
  unfold split. cbn [split_go app].
  change (x :: sep' ++ r) with ((x :: sep') ++ r).
  rewrite startswith_self, split_go_skip.
  replace (length (x :: sep') - 1)%nat with (length sep') by (simpl; lia).
  by rewrite drop_app_length.
Qed.

Lemma split_cons sep c s :
  startswith sep (c :: s) = false ->
  split sep (c :: s) = prepend [c] (split sep s).
Proof.
  intros H. unfold split at 1. cbn [split_go]. rewrite H.
  apply split_go_cur.
Qed.

Lemma split_is_cons sep s : exists h t, split sep s = h :: t.
Proof.
  destruct s as [|c s]; [by eexists _, _|].
  unfold split. cbn [split_go]. destruct (startswith sep (c :: s)).
  - by eexists _, _.
  - rewrite split_go_cur. destruct (split sep s); by eexists _, _.
Qed.

Lemma split_nomatch sep a r :
  nomatch sep a r = true -> split sep (a ++ r) = prepend a (split sep r).
Proof.
  induction a as [|x a IH].
  - intros _. simpl. destruct (split_is_cons sep r) as (h & t & ->). done.
  - cbn [nomatch app]. intros [H1 H2]%andb_true_iff.
    apply negb_true_iff in H1. cbn [app] in H1.
    rewrite (split_cons _ _ _ H1), (IH H2), prepend_prepend. done.
Qed.

Lemma split_not_contains sep s : contains sep s = false -> split sep s = [s].
Proof.
  intros H. rewrite <- (app_nil_r s) at 1.
  rewrite split_nomatch; [by simpl; rewrite app_nil_r|].
  apply not_contains_nomatch. by rewrite app_nil_r.
Qed.

(** The first piece is a prefix of the text. *)
Lemma split_head_prefix sep s h t : split sep s = h :: t -> exists r, s = h ++ r.
Proof.
  revert h t. induction s as [|c s IH]; intros h t.
  - intros [= <- <-]. by exists [].
  - destruct (startswith sep (c :: s)) eqn:E.
    + unfold split. cbn [split_go]. rewrite E. intros [= <- <-]. by eexists.
    + rewrite (split_cons _ _ _ E).
      destruct (split_is_cons sep s) as (h' & t' & Hs). rewrite Hs.
      intros [= <- <-]. destruct (IH _ _ Hs) as [r ->]. by exists r.
Qed.

(** [s.split(sep)[1]] exists exactly when [sep] occurs in [s]. *)
Lemma split_second sep s :
  sep <> [] -> is_Some (split sep s !! 1%nat) <-> contains sep s = true.
Proof.
  intros Hsep. induction s as [|c s IH].
  - simpl. destruct sep; [done|]. simpl. split; [by intros [? [=]] | done].
  - destruct (startswith sep (c :: s)) eqn:E.
    + cbn [contains]. rewrite E. simpl. split; [done | intros _].
      apply startswith_spec in E as [r ->]. rewrite split_match by done.
      destruct (split_is_cons sep r) as (h & t & ->). by eexists.
    + cbn [contains]. rewrite E, (split_cons _ _ _ E). simpl.
      rewrite <- IH. destruct (split_is_cons sep s) as (h & t & ->). done.
Qed.

Lemma split_second_none sep s :
  sep <> [] -> split sep s !! 1%nat = None <-> contains sep s = false.
Proof.
  intros Hsep. rewrite eq_None_not_Some, split_second by done.
  by destruct (contains sep s).
Qed.

(** *** replace *)

Lemma remove_go_skip old k s : remove_go old k s = remove_go old 0 (drop k s).
Proof.
  revert k. induction s as [|c s IH]; intros [|k]; try done.
  cbn [remove_go drop]. apply IH.
Qed.

Lemma remove_match old r : old <> [] -> remove old (old ++ r) = remove old r.
Proof.
  destruct old as [|x old']; [done|]. intros _.
  unfold remove. cbn [remove_go app].
  change (x :: old' ++ r) with ((x :: old') ++ r).
  rewrite startswith_self, remove_go_skip.
  replace (length (x :: old') - 1)%nat with (length old') by (simpl; lia).
  by rewrite drop_app_length.
Qed.

Lemma remove_cons old c s :
  old <> [] -> startswith old (c :: s) = false ->
  remove old (c :: s) = c :: remove old s.
Proof.
  destruct old as [|x old']; [done|]. intros _ H.
  unfold remove. cbn [remove_go]. by rewrite H.
Qed.

Lemma remove_nomatch old a r :
  old <> [] -> nomatch old a r = true -> remove old (a ++ r) = a ++ remove old r.
Proof.
  intros Hold. induction a as [|x a IH]; [done|].
  cbn [nomatch app]. intros [H1 H2]%andb_true_iff.
  apply negb_true_iff in H1. cbn [app] in H1.
  by rewrite remove_cons, IH.
Qed.


(** Deleting text adds no character. *)
Lemma remove_go_elem old k s c : c ∈ remove_go old k s -> c ∈ s.
Proof.
  revert k. induction s as [|y s IH]; intros k; [done|].
  cbn [remove_go]. destruct k as [|k].
  - destruct (startswith old (y :: s)).
    + intros H%IH. by right.
    + intros [->|H%IH]%elem_of_cons; [left | by right].
  - intros H%IH. by right.
Qed.

Lemma remove_elem old s c : c ∈ remove old s -> c ∈ s.
Proof. destruct old; [done|]. apply remove_go_elem. Qed.

Lemma remove_char_gone c s : c ∉ remove [c] s.
Proof.
  unfold remove. induction s as [|y s IH]; [by intros ?%elem_of_nil|].
  cbn [remove_go startswith]. destruct (c =? y) eqn:E; simpl.
  - done.
  - apply not_elem_of_cons. split; [|done].
    intros ->. by rewrite N.eqb_refl in E.
Qed.

Lemma remove_char_absent c s : c ∉ s -> remove [c] s = s.
Proof.
  unfold remove. induction s as [|y s IH]; [done|].
  intros [Hy Hs]%not_elem_of_cons. cbn [remove_go startswith].
  destruct (N.eqb_spec c y) as [->|_]; [done|]. simpl. by rewrite IH.
Qed.

(** *** strip *)

Lemma lstrip_elem s c : c ∈ lstrip s -> c ∈ s.
Proof.
  induction s as [|y s IH]; [done|]. simpl.
  destruct (isspace y); [|done]. intros H%IH. by right.
Qed.

Lemma strip_elem s c : c ∈ strip s -> c ∈ s.
Proof.
  unfold strip, rstrip. rewrite !list_elem_of_In, <- in_rev, <- !list_elem_of_In.
  intros H%lstrip_elem. apply lstrip_elem.
  by rewrite list_elem_of_In, in_rev, <- list_elem_of_In.
Qed.

(** *** tag removal *)

Lemma sub_tags_no_lt s : lt_sign ∉ s -> sub_tags 0 s = s.
Proof.
  induction s as [|y s IH]; [done|].
  intros [Hy Hs]%not_elem_of_cons. cbn [sub_tags].
  destruct (N.eqb_spec y lt_sign) as [->|_]; [done|]. by rewrite IH.
Qed.

End StrFacts.

(** ** The scan over the vocabulary *)

Section Scan.

Implicit Types (vs acts : list str) (b : str).

Lemma scan_step_sublist vs acts b :
  exists l, (foldl scan_step (acts, b) vs).1 = acts ++ l /\ l `sublist_of` vs.
Proof.
  revert acts b. induction vs as [|p vs IH]; intros acts b.
  - exists []. simpl. by rewrite app_nil_r.
  - cbn [foldl scan_step]. destruct (contains p b).
    + destruct (IH (acts ++ [p]) (strip (remove p b))) as (l & -> & Hl).
      exists (p :: l). rewrite <- app_assoc. split; [done|].
      by apply sublist_skip.
    + destruct (IH acts b) as (l & -> & Hl).
      exists l. split; [done|]. by apply sublist_cons.
Qed.

Lemma scan_step_nil vs acts b :
  (foldl scan_step (acts, b) vs).1 = [] <->
  acts = [] /\ forall p, p ∈ vs -> contains p b = false.
Proof.
  revert acts b. induction vs as [|p vs IH]; intros acts b.
  - simpl. split; [intros ->; split; [done|] | by intros [-> _]].
    by intros p ?%elem_of_nil.
  - cbn [foldl scan_step]. destruct (contains p b) eqn:E; rewrite IH.
    + split.
      * intros [H _]. by destruct acts.
      * intros [_ H]. specialize (H p (list_elem_of_here _ _)). congruence.
    + split; intros [-> H]; (split; [done|]).
      * intros q [->|Hq]%elem_of_cons; [done | by apply H].
      * intros q Hq. apply H. by right.
Qed.

Lemma scan_sublist b : (scan b).1 `sublist_of` activity_types.
Proof.
  unfold scan. destruct (scan_step_sublist activity_types [] b) as (l & -> & H).
  done.
Qed.

Lemma scan_nil b :
  (scan b).1 = [] <-> forall p, p ∈ activity_types -> contains p b = false.
Proof.
  unfold scan. rewrite scan_step_nil. split; [by intros [_ H] | by intros H].
Qed.

End Scan.

Lemma activity_types_NoDup : NoDup activity_types.
Proof. apply (bool_decide_unpack _). by vm_compute. Qed.

(** ** The branches of the parser *)

(** What a returned record says about the path taken. *)
Lemma parse_description_Some d r :
  parse_description d = Some r ->
  (startswith (lit "All post activity to") d = true /\
   exists ch, split (lit "All post activity to ") d !! 1%nat = Some ch /\
     r = Parsed ch [lit "all"] activity_types) \/
  (startswith (lit "All post activity to") d = false /\
   exists rest ch,
     split (lit "Any ") d !! 1%nat = Some rest /\
     split (lit " to ") rest !! 1%nat = Some ch /\
     ((contains (lit "posts to") rest = true /\
       exists before, split (lit " posts to ") rest !! 0%nat = Some before /\
         r = Parsed ch (split (lit " ") before) activity_types) \/
      (contains (lit "posts to") rest = false /\
       exists body, split (lit " to ") rest !! 0%nat = Some body /\
         r = Parsed ch
               (match (scan body).2 with
                | [] => [lit "all"]
                | rem => split (lit " ") rem
                end)
               (scan body).1))).
Proof.
  intros H. unfold parse_description in H.
  destruct (startswith (lit "All post activity to") d); [left | right].
  - destruct (split (lit "All post activity to ") d !! 1%nat) as [ch|];
      cbn [mbind option_bind] in H; [|done]. injection H as <-. eauto.
  - split; [done|].
    destruct (split (lit "Any ") d !! 1%nat) as [rest|];
      cbn [mbind option_bind] in H; [|done].
    destruct (split (lit " to ") rest !! 1%nat) as [ch|] eqn:E1;
      cbn [mbind option_bind] in H; [|done].
    exists rest, ch. do 2 (split; [done|]).
    destruct (contains (lit "posts to") rest); [left | right].
    + destruct (split (lit " posts to ") rest !! 0%nat) as [before|] eqn:E2;
        cbn [mbind option_bind] in H; [|done].
      injection H as <-. eauto.
    + split; [done|].
      destruct (split (lit " to ") rest !! 0%nat) as [body|] eqn:E2;
        cbn [mbind option_bind] in H; [|done].
      exists body. split; [done|].
      destruct (scan body) as [acts [|c rem]]; by injection H as <-.
Qed.

(** Every split has a first piece. *)
Lemma split_first sep s : is_Some (split sep s !! 0%nat).
Proof. destruct (split_is_cons sep s) as (h & t & ->). by eexists. Qed.

(** The parse fails exactly when a split lacks its second piece. *)
Lemma parse_description_None d :
  parse_description d = None <->
  if startswith (lit "All post activity to") d
  then contains (lit "All post activity to ") d = false
  else contains (lit "Any ") d = false \/
       exists rest, split (lit "Any ") d !! 1%nat = Some rest /\
                    contains (lit " to ") rest = false.
Proof.
  unfold parse_description.
  destruct (startswith (lit "All post activity to") d).
  - rewrite <- split_second_none by done.
    by destruct (split (lit "All post activity to ") d !! 1%nat).
  - destruct (split (lit "Any ") d !! 1%nat) as [rest|] eqn:E;
      cbn [mbind option_bind].
    + assert (contains (lit "Any ") d = true) as HA
        by (apply split_second; [done | by rewrite E]).
      rewrite HA.
      destruct (split (lit " to ") rest !! 1%nat) as [ch|] eqn:E1;
        cbn [mbind option_bind].
      * assert (contains (lit " to ") rest = true) as HT
          by (apply split_second; [done | by rewrite E1]).
        split; [|intros [[=] | (rest' & [= <-] & ?)]; congruence].
        destruct (contains (lit "posts to") rest).
        -- by destruct (split_first (lit " posts to ") rest) as [x ->].
        -- destruct (split_first (lit " to ") rest) as [x ->].
           cbn [mbind option_bind]. by destruct (scan x) as [? [|??]].
      * split; [intros _ | done]. right. exists rest. split; [done|].
        by apply split_second_none.
    + split; [intros _ | done]. left. by apply split_second_none.
Qed.

Lemma nomatch_before p q x a r :
  (length p <= length q)%nat ->
  contains x p = true ->
  borders_ok p q x = true ->
  contains x a = false ->
  nomatch p a (q ++ r) = true.
Proof.
  intros Hlen Hxp Hb. induction a as [|c a IH]; [done|].
  intros Hx. cbn [nomatch]. apply andb_true_iff. split.
  - apply negb_true_iff. rewrite startswith_app.
    case_decide as Hl.
    + apply not_true_is_false. intros Hp.
      assert (contains p (c :: a) = true) as Hc
        by (apply contains_spec; apply startswith_spec in Hp as [t ->];
            by exists [], t).
      pose proof (contains_trans _ _ _ Hxp Hc). congruence.
    + destruct (startswith (c :: a) p) eqn:Ha; [|done]. simpl.
      apply startswith_spec in Ha as [t Ht].
      set (k := length (c :: a)) in *.
      assert (take k p = c :: a) as Htk
        by (rewrite Ht; unfold k; by rewrite take_app_length).
      unfold borders_ok in Hb. rewrite forallb_forall in Hb.
      specialize (Hb k). rewrite Htk, Hx, orb_false_r in Hb.
      rewrite startswith_app. case_decide as Hq.
      * apply negb_true_iff, Hb, in_seq. unfold k in *. simpl in *. lia.
      * rewrite length_drop in Hq. lia.
  - apply IH. by apply not_contains_cons in Hx.
Qed.

(** ** Words, gaps and pieces *)

Section Pieces.

Implicit Types (p w t r x : str) (l : list str).

Lemma startswith_gap p r :
  p <> [] -> gap r = true -> startswith p r = true -> gap p = true.
Proof.
  destruct p as [|a p]; [done|]. intros _. destruct r as [|c r]; [done|].
  simpl. intros Hc [Ha _]%andb_true_iff. apply N.eqb_eq in Ha as ->. done.
Qed.

Lemma clash_at_sound p w r :
  gap r = true -> clash_at p w = false -> startswith p (w ++ r) = false.
Proof.
  intros Hg. rewrite startswith_app. unfold clash_at.
  case_decide as Hl; [done|].
  destruct (startswith w p); [|done]. simpl. intros Hc.
  apply not_true_is_false. intros Hs.
  apply startswith_gap in Hs; [congruence | | done].
  intros E. apply (f_equal length) in E. rewrite length_drop in E.
  simpl in E. lia.
Qed.

Lemma noclashb_sound p w r :
  noclashb p w = true -> gap r = true -> nomatch p w r = true.
Proof.
  intros H Hg. induction w as [|c w IH]; [done|].
  cbn [noclashb nomatch] in *. apply andb_true_iff in H as [H1 H2].
  apply andb_true_iff. split; [|by apply IH].
  apply negb_true_iff in H1. by rewrite (clash_at_sound _ _ _ Hg H1).
Qed.

Lemma first_word_space_free p :
  (forall c, c ∈ p -> c <> space) -> first_word p = p.
Proof.
  induction p as [|a p IH]; [done|]. intros H. simpl.
  destruct (N.eqb_spec a space) as [->|_].
  - by destruct (H space (list_elem_of_here _ _)).
  - rewrite IH; [done|]. intros c Hc. apply H. by right.
Qed.

(** A prefix test on a space-free word followed by a gap either succeeds
    inside the word or takes the whole word as the first word of the
    pattern. *)
Lemma startswith_word p t r :
  (forall c, c ∈ t -> c <> space) -> gap r = true ->
  startswith p (t ++ r) = true ->
  startswith p t = true \/ first_word p = t.
Proof.
  intros Ht Hg. revert p. induction t as [|y t IH]; intros [|a p]; simpl;
    try (by left).
  - destruct r as [|c r]; [done|]. simpl in Hg.
    intros [Ha _]%andb_true_iff. apply N.eqb_eq in Ha as ->.
    rewrite Hg. by right.
  - intros [Ha Hp]%andb_true_iff. apply N.eqb_eq in Ha as ->.
    rewrite N.eqb_refl. simpl.
    destruct (IH (fun c Hc => Ht c (list_elem_of_further _ _ _ Hc)) _ Hp)
      as [?| ->]; [by left|].
    right. destruct (N.eqb_spec y space) as [->|_]; [|done].
    by destruct (Ht space (list_elem_of_here _ _)).
Qed.

(** A space-free word that does not contain the first word of [p] is clear
    of [p]. *)
Lemma word_noclash p t r :
  (forall c, c ∈ t -> c <> space) ->
  contains (first_word p) t = false ->
  gap r = true -> nomatch p t r = true.
Proof.
  intros Ht Hc Hg. induction t as [|y t IH]; [done|].
  cbn [nomatch]. apply andb_true_iff. split.
  - apply negb_true_iff, not_true_is_false. intros Hs.
    apply startswith_word in Hs as [Hs | Hs]; [| |done..].
    + assert (first_word p = p) as Hp.
      { apply first_word_space_free. intros c Hin. apply Ht.
        apply startswith_spec in Hs as [z ->].
        apply elem_of_app. by left. }
      rewrite Hp in Hc. apply not_contains_startswith in Hc. congruence.
    + rewrite Hs in Hc.
      pose proof (contains_here (y :: t) []) as Hh.
      rewrite app_nil_r in Hh. congruence.
  - apply IH.
    + intros c Hin. apply Ht. by right.
    + by apply not_contains_cons in Hc.
Qed.

Lemma alt_tail x l : alt (x :: l) -> alt l.
Proof. by intros [_ ?]. Qed.

Lemma alt_gap x l r :
  alt (x :: l) -> x <> sp -> gap r = true -> gap (concat l ++ r) = true.
Proof.
  destruct l as [|y l]; [done|]. intros [[?| ->] _] ?; done.
Qed.

(** [p] starts nowhere in a text whose pieces are spaces and words clear of
    [p]. *)
Lemma nomatch_pieces p l r :
  (forall s, startswith p (space :: s) = false) ->
  alt l -> gap r = true ->
  Forall (fun x => x = sp \/
                   forall r', gap r' = true -> nomatch p x r' = true) l ->
  nomatch p (concat l) r = true.
Proof.
  intros Hp Ha Hg Hl. induction Hl as [|x l Hx Hl IH]; [done|].
  cbn [concat]. rewrite nomatch_app, (IH (alt_tail _ _ Ha)), andb_true_r.
  destruct (decide (x = sp)) as [->|Hne].
  - cbn [nomatch sp app]. by rewrite Hp.
  - destruct Hx as [?|Hx]; [done|]. apply Hx. by eapply alt_gap.
Qed.

Lemma not_contains_pieces p l :
  p <> [] ->
  (forall s, startswith p (space :: s) = false) ->
  alt l ->
  Forall (fun x => x = sp \/
                   forall r', gap r' = true -> nomatch p x r' = true) l ->
  contains p (concat l) = false.
Proof.
  intros Hne Hp Ha Hl. rewrite <- (app_nil_r (concat l)).
  rewrite nomatch_contains by by apply nomatch_pieces.
  by destruct p.
Qed.

Lemma contains_piece p l : p ∈ l -> contains p (concat l) = true.
Proof.
  intros (l1 & l2 & ->)%list_elem_of_split. rewrite concat_app. cbn [concat].
  apply contains_app_l, contains_here.
Qed.

(** Deleting [p] from such a text deletes the pieces equal to [p]. *)
Lemma remove_pieces p l :
  p <> [] ->
  (forall s, startswith p (space :: s) = false) ->
  alt l ->
  Forall (fun x => x = p \/ x = sp \/
                   forall r', gap r' = true -> nomatch p x r' = true) l ->
  remove p (concat l) = concat (filter (fun x => x <> p) l).
Proof.
  intros Hne Hp Ha Hl. induction Hl as [|x l Hx Hl IH].
  - by destruct p.
  - cbn [concat]. destruct (decide (x = p)) as [->|Hxp].
    + rewrite remove_match, (IH (alt_tail _ _ Ha)) by done.
      by rewrite filter_cons_False by (by intros ?).
    + rewrite filter_cons_True by done. cbn [concat].
      destruct (decide (x = sp)) as [->|Hsp].
      * cbn [sp app]. rewrite remove_cons by done.
        by rewrite (IH (alt_tail _ _ Ha)).
      * destruct Hx as [?|[?|Hx]]; [done..|].
        rewrite remove_nomatch; [by rewrite (IH (alt_tail _ _ Ha)) | done |].
        apply Hx. rewrite <- (app_nil_r (concat l)). by eapply alt_gap.
Qed.

End Pieces.

(** ** Stripping a text of pieces *)

Section StripPieces.

Implicit Types (w x : str) (l k : list str).

Lemma lstrip_app u v :
  lstrip (u ++ v) = match lstrip u with
                    | [] => lstrip v
                    | y :: z => (y :: z) ++ v
                    end.
Proof.
  induction u as [|c u IH]; [done|]. simpl. by destruct (isspace c).
Qed.

Lemma rstrip_app a b :
  rstrip (a ++ b) = match rstrip b with
                    | [] => rstrip a
                    | y :: z => a ++ y :: z
                    end.
Proof.
  unfold rstrip. rewrite rev_app_distr, lstrip_app.
  destruct (lstrip (rev b)) as [|y z] eqn:E; [done|].
  rewrite rev_app_distr, rev_involutive.
  destruct (rev (y :: z)) eqn:E'; [|done].
  apply (f_equal (@length _)) in E'. rewrite length_rev in E'. done.
Qed.

Lemma solidb_lstrip w : solidb w = true -> lstrip w = w.
Proof.
  unfold solidb. destruct w as [|c w]; [done|].
  destruct (last (c :: w)); [|done]. intros [Hc _]%andb_true_iff.
  simpl. by apply negb_true_iff in Hc as ->.
Qed.

Lemma solidb_rstrip w : solidb w = true -> rstrip w = w.
Proof.
  unfold solidb. destruct w as [|c w]; [done|].
  destruct (last (c :: w)) as [e|] eqn:E; [|done].
  intros [_ He]%andb_true_iff. apply negb_true_iff in He.
  apply last_Some in E as [w' ->]. unfold rstrip.
  rewrite rev_app_distr. simpl. rewrite He. simpl.
  by rewrite rev_involutive.
Qed.

Lemma solidb_cons w : solidb w = true -> exists c w', w = c :: w'.
Proof. destruct w; [done | eauto]. Qed.

Lemma ldrop_elem x l : x ∈ ldrop l -> x ∈ l.
Proof.
  induction l as [|y l IH]; [done|]. simpl. case_decide; [|done].
  intros ?%IH. by right.
Qed.

Lemma ldrop_keep x l : x ∈ l -> x <> sp -> x ∈ ldrop l.
Proof.
  intros Hin Hne. induction l as [|y l IH]; [done|]. simpl.
  case_decide as E; [|done]. apply IH.
  apply elem_of_cons in Hin as [->|?]; done.
Qed.

Lemma rdrop_elem x l : x ∈ rdrop l -> x ∈ l.
Proof.
  induction l as [|y l IH]; [done|]. simpl.
  destruct (rdrop l) as [|z k].
  - case_decide; [by intros ?%elem_of_nil|].
    intros ->%list_elem_of_singleton. by left.
  - intros [->|?]%elem_of_cons; [by left | right; by apply IH].
Qed.

Lemma rdrop_keep x l : x ∈ l -> x <> sp -> x ∈ rdrop l.
Proof.
  intros Hin Hne. induction l as [|y l IH]; [done|]. simpl.
  apply elem_of_cons in Hin as [->|Hin].
  - destruct (rdrop l); [|by left]. case_decide; [done | by left].
  - specialize (IH Hin). destruct (rdrop l);
      [by apply elem_of_nil in IH | by right].
Qed.

Lemma rdrop_head l y k : rdrop l = y :: k -> head l = Some y.
Proof.
  destruct l as [|x l]; [done|]. simpl. destruct (rdrop l).
  - case_decide; [done|]. by intros [= <- _].
  - by intros [= <- _].
Qed.

Lemma rdrop_app_keep l k : last l <> Some sp -> rdrop (l ++ k) = l ++ rdrop k.
Proof.
  induction l as [|x l IH]; [done|]. intros Hl.
  cbn [app rdrop]. destruct l as [|y l].
  - simpl in *. destruct (rdrop k); [|done].
    case_decide; [by subst | done].
  - rewrite IH by (by rewrite last_cons_cons in Hl). done.
Qed.

Lemma ldrop_id l : head l <> Some sp -> ldrop l = l.
Proof.
  destruct l as [|x l]; [done|]. simpl. intros H.
  case_decide; [by subst | done].
Qed.

Lemma ldrop_head l : head (ldrop l) <> Some sp.
Proof.
  induction l as [|x l IH]; [done|]. simpl. case_decide; [done|].
  simpl. by intros [= ?].
Qed.

Lemma rdrop_last l : last (rdrop l) <> Some sp.
Proof.
  induction l as [|x l IH]; [done|]. simpl. destruct (rdrop l) as [|y k].
  - case_decide; [done|]. simpl. by intros [= ?].
  - by rewrite last_cons_cons.
Qed.

Lemma rdrop_keeps_head l : head l <> Some sp -> head (rdrop l) <> Some sp.
Proof.
  destruct l as [|x l]; [done|]. simpl. intros H.
  destruct (rdrop l); [case_decide|]; done.
Qed.

Lemma strip_pieces_tight l : tight (strip_pieces l).
Proof.
  split; [apply rdrop_keeps_head, ldrop_head | apply rdrop_last].
Qed.

Lemma alt_ldrop l : alt l -> alt (ldrop l).
Proof.
  induction l as [|x l IH]; [done|]. simpl. intros Ha.
  case_decide; [apply IH; by destruct Ha | done].
Qed.

Lemma alt_rdrop l : alt l -> alt (rdrop l).
Proof.
  induction l as [|x l IH]; [done|]. intros [Hx Ha]. simpl.
  destruct (rdrop l) as [|y k] eqn:E.
  - by case_decide.
  - split; [|by apply IH]. apply rdrop_head in E.
    destruct l as [|z l]; [done|]. by injection E as ->.
Qed.

Lemma alt_filter p l : p <> sp -> alt l -> alt (filter (fun x => x <> p) l).
Proof.
  intros Hp. induction l as [|x l IH]; [done|]. intros [Hx Ha].
  destruct (decide (x = p)) as [->|Hxp].
  - rewrite filter_cons_False by (by intros ?). by apply IH.
  - rewrite filter_cons_True by done. split; [|by apply IH].
    destruct l as [|y l]; [done|].
    destruct Hx as [->| ->].
    + destruct (filter _ (y :: l)); [done | by left].
    + rewrite filter_cons_True by done. by right.
Qed.

Lemma alt_spaced ws : alt (spaced ws).
Proof.
  induction ws as [|w ws IH]; [done|]. simpl.
  destruct ws as [|w' ws]; [done|].
  split; [by right|]. split; [|done].
  simpl. destruct ws; by left.
Qed.

Lemma lstrip_pieces l :
  Forall (fun x => x = sp \/ solidb x = true) l ->
  lstrip (concat l) = concat (ldrop l).
Proof.
  induction 1 as [|x l Hx Hl IH]; [done|]. cbn [concat ldrop].
  case_decide as E.
  - subst x. done.
  - destruct Hx as [?|Hx]; [done|]. rewrite lstrip_app, solidb_lstrip by done.
    by destruct (solidb_cons _ Hx) as (c & w' & ->).
Qed.

Lemma rstrip_pieces l :
  Forall (fun x => x = sp \/ solidb x = true) l ->
  rstrip (concat l) = concat (rdrop l).
Proof.
  induction 1 as [|x l Hx Hl IH]; [done|]. cbn [concat rdrop].
  rewrite rstrip_app, IH. destruct (rdrop l) as [|y k] eqn:E.
  - simpl. case_decide as Es.
    + by subst x.
    + destruct Hx as [?|Hx]; [done|].
      cbn [concat]. by rewrite app_nil_r, solidb_rstrip.
  - assert (y ∈ l) as Hy by (apply rdrop_elem; rewrite E; by left).
    rewrite Forall_forall in Hl.
    destruct (Hl y Hy) as [->|(c & w' & ->)%solidb_cons]; done.
Qed.

Lemma strip_pieces_concat l :
  Forall (fun x => x = sp \/ solidb x = true) l ->
  strip (concat l) = concat (strip_pieces l).
Proof.
  intros Hl. unfold strip, strip_pieces.
  rewrite lstrip_pieces, rstrip_pieces; [done | | done].
  apply Forall_forall. intros x Hx%ldrop_elem.
  by apply (proj1 (Forall_forall _ _) Hl).
Qed.

End StripPieces.

(** ** Tags and vocabulary phrases as words *)

Lemma isspace_space : isspace space = true.
Proof. done. Qed.

Lemma good_tag_facts t :
  good_tag t = true ->
  t <> [] /\ (forall c, c ∈ t -> c <> space) /\ solidb t = true /\
  t <> lit "to" /\ contains (lit "Any") t = false /\
  forall p, p ∈ activity_types -> contains (first_word p) t = false.
Proof.
  unfold good_tag. rewrite !andb_true_iff, !negb_true_iff, !forallb_forall.
  rewrite !bool_decide_eq_false.
  intros ((((Hne & Hsp) & Hto) & HA) & Hv).
  assert (forall c, c ∈ t -> isspace c = false) as Hsp'.
  { intros c Hc. apply negb_true_iff, Hsp. by apply list_elem_of_In. }
  split_and!; try done.
  - intros c Hc ->. apply Hsp' in Hc. by rewrite isspace_space in Hc.
  - unfold solidb. destruct t as [|c t]; [done|].
    destruct (last (c :: t)) as [e|] eqn:E; [|by apply last_None in E].
    rewrite (Hsp' c), (Hsp' e); [done | | by left].
    by apply last_Some_elem_of.
  - intros p Hp. apply negb_true_iff, Hv. by apply list_elem_of_In.
Qed.

Lemma vocabulary_phrase p :
  p ∈ activity_types ->
  p <> [] /\ p <> sp /\ (forall s, startswith p (space :: s) = false) /\
  solidb p = true /\ contains (first_word p) p = true /\
  noclashb (lit "Any ") p = true /\ noclashb (lit " to ") p = true /\
  clash_at (lit "to ") p = false.
Proof.
  intros Hp. unfold activity_types in Hp.
  repeat (apply elem_of_cons in Hp as [->|Hp]);
    [..|by apply elem_of_nil in Hp];
    (split_and!; [done | done | by intros s | by vm_compute..]).
Qed.

Lemma activity_types_ordered : ordered_noclash activity_types = true.
Proof. by vm_compute. Qed.

Lemma good_tag_not_phrase t : good_tag t = true -> t ∉ activity_types.
Proof.
  intros (_ & _ & _ & _ & _ & Hv)%good_tag_facts Ht.
  destruct (vocabulary_phrase t Ht) as (_ & _ & _ & _ & Hc & _).
  specialize (Hv t Ht). congruence.
Qed.

Lemma good_tag_not_sp t : good_tag t = true -> t <> sp.
Proof.
  intros (_ & Hs & _)%good_tag_facts ->. by apply (Hs space); [left|].
Qed.

(** *** The pieces of a joined list *)

Lemma spaced_elem x ws : x ∈ spaced ws -> x = sp \/ x ∈ ws.
Proof.
  induction ws as [|w ws IH]; [by intros ?%elem_of_nil|].
  cbn [spaced]. destruct ws as [|w' ws].
  - intros ->%list_elem_of_singleton. right. by left.
  - intros [->|[->|H]%elem_of_cons]%elem_of_cons.
    + right. by left.
    + by left.
    + destruct (IH H) as [?|?]; [by left | right; by right].
Qed.

Lemma elem_spaced x ws : x ∈ ws -> x ∈ spaced ws.
Proof.
  induction ws as [|w ws IH]; [done|]. cbn [spaced].
  intros [->|H]%elem_of_cons.
  - destruct ws; by left.
  - destruct ws as [|w' ws]; [by apply elem_of_nil in H|].
    right. right. by apply IH.
Qed.

Lemma head_spaced ws : head (spaced ws) = head ws.
Proof. destruct ws as [|w [|w' ws]]; done. Qed.

Lemma last_spaced ws : last (spaced ws) = last ws.
Proof.
  induction ws as [|w ws IH]; [done|]. cbn [spaced].
  destruct ws as [|w' ws]; [done|].
  rewrite !last_cons_cons, <- IH. cbn [spaced].
  destruct ws; by rewrite ?last_cons_cons.
Qed.

Lemma tight_spaced ws : Forall (fun w => w <> sp) ws -> tight (spaced ws).
Proof.
  intros H. rewrite Forall_forall in H. split.
  - rewrite head_spaced. intros E. apply (H sp); [|done].
    destruct ws; [done|]. injection E as ->. by left.
  - rewrite last_spaced. intros E%last_Some_elem_of. by apply (H sp).
Qed.

Lemma spaced_app ws vs :
  spaced (ws ++ vs) =
  match ws, vs with
  | [], _ => spaced vs
  | _, [] => spaced ws
  | _ :: _, _ :: _ => spaced ws ++ sp :: spaced vs
  end.
Proof.
  induction ws as [|w ws IH]; [done|]. destruct vs as [|v vs].
  - by rewrite app_nil_r.
  - cbn [app spaced]. destruct ws as [|w' ws]; [done|].
    cbn [app] in *. by rewrite IH.
Qed.

(** Splitting a joined list of space-free words gives the words back. *)
Lemma split_join ws :
  ws <> [] -> Forall (fun w => forall c, c ∈ w -> c <> space) ws ->
  split sp (join ws) = ws.
Proof.
  intros Hne Hws. unfold join.
  assert (forall w r, (forall c, c ∈ w -> c <> space) -> nomatch sp w r = true)
    as Hnm.
  { intros w r Hw. induction w as [|c w IH]; [done|].
    cbn [nomatch app sp startswith].
    destruct (N.eqb_spec space c) as [<-|_].
    - by destruct (Hw space (list_elem_of_here _ _)).
    - apply IH. intros c' Hc'. apply Hw. by right. }
  induction Hws as [|w ws Hw Hws IH]; [done|]. clear Hne.
  cbn [spaced]. destruct ws as [|w' ws].
  - cbn [concat]. rewrite split_nomatch, split_nil by by apply Hnm.
    cbn [prepend]. by rewrite app_nil_r.
  - cbn [concat]. rewrite split_nomatch, split_match by (done || by apply Hnm).
    cbn [prepend]. by rewrite app_nil_r, IH.
Qed.

(** ** The scan of a body made of tags followed by phrases *)

Section ExplicitForm.

Variables ts ps : list str.
Hypothesis Hts : Forall (fun t => good_tag t = true) ts.
Hypothesis Hps : Forall (fun p => p ∈ activity_types) ps.

Lemma tags_pieces x : x ∈ spaced ts -> x = sp \/ good_tag x = true.
Proof.
  intros [?|H]%spaced_elem; [by left | right].
  by apply (proj1 (Forall_forall _ _) Hts).
Qed.

Lemma tags_tight : tight (spaced ts).
Proof.
  apply tight_spaced. eapply Forall_impl; [exact Hts|].
  intros t Ht. by apply good_tag_not_sp.
Qed.

Lemma ps_phrase q : q ∈ ps -> q ∈ activity_types.
Proof. by apply (proj1 (Forall_forall _ _) Hps). Qed.

Lemma body_solid vs tail :
  left_over ts ps vs tail ->
  Forall (fun x => x = sp \/ solidb x = true) (spaced ts ++ tail).
Proof.
  intros (Hb & _). apply Forall_app. split.
  - apply Forall_forall. intros x [->|Hx]%tags_pieces; [by left | right].
    by apply good_tag_facts in Hx as (_ & _ & ? & _).
  - eapply Forall_impl; [exact Hb|]. intros x [->|[Hx _]]; [by left | right].
    by apply ps_phrase, vocabulary_phrase in Hx as (_ & _ & _ & ? & _).
Qed.

Lemma body_clear p vs tail :
  p ∈ activity_types ->
  ordered_noclash (p :: vs) = true ->
  left_over ts ps (p :: vs) tail ->
  Forall (fun x => x = p \/ x = sp \/
                   forall r, gap r = true -> nomatch p x r = true)
         (spaced ts ++ tail).
Proof.
  intros Hp [Ho _]%andb_true_iff (Hb & _). rewrite forallb_forall in Ho.
  apply Forall_app. split.
  - apply Forall_forall. intros x [->|Hx]%tags_pieces; [by right; left|].
    right. right. intros r Hr.
    apply good_tag_facts in Hx as (_ & Hs & _ & _ & _ & Hv).
    apply word_noclash; [done | by apply Hv | done].
  - eapply Forall_impl; [exact Hb|].
    intros x [->|[_ [->|Hx]%elem_of_cons]]; [by right; left | by left |].
    right. right. intros r Hr. apply noclashb_sound; [|done].
    by apply Ho, list_elem_of_In.
Qed.

Lemma left_over_skip p vs tail :
  p ∉ ps -> left_over ts ps (p :: vs) tail -> left_over ts ps vs tail.
Proof.
  intros Hp (Hb & Ha & Ht & He). split_and!; [|done..|].
  - eapply Forall_impl; [exact Hb|].
    intros x [->|[Hx [->|?]%elem_of_cons]]; [by left | done | by right].
  - intros q Hq Hv. apply He; [done | by right].
Qed.

Lemma filter_tags p : p ∈ activity_types ->
  filter (fun x => x <> p) (spaced ts) = spaced ts.
Proof.
  intros Hp. assert (Forall (fun x => x <> p) (spaced ts)) as H.
  { apply Forall_forall. intros x [->|Hx]%tags_pieces.
    - intros <-. by apply vocabulary_phrase in Hp as (_ & ? & _).
    - intros ->. by apply good_tag_not_phrase in Hx. }
  induction H as [|x l Hx Hl IH]; [done|].
  by rewrite filter_cons_True, IH.
Qed.

Lemma left_over_step p vs tail :
  p ∈ activity_types -> p ∉ vs ->
  left_over ts ps (p :: vs) tail ->
  exists tail',
    strip_pieces (filter (fun x => x <> p) (spaced ts ++ tail)) =
      spaced ts ++ tail' /\
    left_over ts ps vs tail'.
Proof.
  intros Hp Hpv (Hb & Ha & Ht & He).
  assert (p <> sp) as Hpsp by (by apply vocabulary_phrase in Hp as (_ & ? & _)).
  set (F := filter (fun x => x <> p) tail).
  assert (exists tail',
    strip_pieces (filter (fun x => x <> p) (spaced ts ++ tail)) =
      spaced ts ++ tail' /\
    (forall x, x ∈ tail' -> x ∈ F) /\
    (forall x, x ∈ F -> x <> sp -> x ∈ tail')) as (tail' & Heq & Hsub & Hkeep).
  { rewrite filter_app, filter_tags by done. fold F.
    destruct tags_tight as [Hh Hl]. unfold strip_pieces.
    destruct (spaced ts) as [|t l] eqn:E.
    - exists (rdrop (ldrop F)). split; [done|]. split.
      + by intros x ?%rdrop_elem%ldrop_elem.
      + intros x ? ?. apply rdrop_keep; [by apply ldrop_keep | done].
    - exists (rdrop F). rewrite ldrop_id, rdrop_app_keep by done.
      split; [done|]. split.
      + by intros x ?%rdrop_elem.
      + intros x ? ?. by apply rdrop_keep. }
  exists tail'. split; [done|]. split_and!.
  - apply Forall_forall. intros x [Hx Hin]%Hsub%list_elem_of_filter.
    rewrite Forall_forall in Hb.
    destruct (Hb x Hin) as [->|[? [->|?]%elem_of_cons]];
      [by left | done | by right].
  - rewrite <- Heq. by apply alt_rdrop, alt_ldrop, alt_filter.
  - rewrite <- Heq. apply strip_pieces_tight.
  - intros q Hq Hv. apply Hkeep.
    + apply list_elem_of_filter. split; [by intros -> | apply He; [done|]].
      by right.
    + by apply ps_phrase, vocabulary_phrase in Hq as (_ & ? & _).
Qed.

Lemma left_over_end tail : left_over ts ps [] tail -> tail = [].
Proof.
  intros (Hb & _ & [_ Hl] & _).
  destruct (last tail) as [y|] eqn:E; [|by apply last_None].
  destruct Hl. rewrite last_app, E.
  apply last_Some_elem_of in E. rewrite Forall_forall in Hb.
  destruct (Hb y E) as [->|[_ ?%elem_of_nil]]; done.
Qed.

(** The scan deletes the phrases of [ps], in vocabulary order, and leaves
    the tags. *)
Lemma scan_left_over vs acts tail :
  (forall p, p ∈ vs -> p ∈ activity_types) ->
  NoDup vs -> ordered_noclash vs = true ->
  left_over ts ps vs tail ->
  foldl scan_step (acts, concat (spaced ts ++ tail)) vs =
  (acts ++ filter (fun p => p ∈ ps) vs, join ts).
Proof.
  revert acts tail. induction vs as [|p vs IH]; intros acts tail Hv Hnd Ho Hl.
  - apply left_over_end in Hl as ->. by rewrite !app_nil_r.
  - assert (p ∈ activity_types) as Hp by (apply Hv; by left).
    destruct (vocabulary_phrase p Hp) as (Hne & Hsp & Hst & _).
    apply NoDup_cons in Hnd as [Hpv Hnd].
    assert (forall q, q ∈ vs -> q ∈ activity_types) as Hv'
      by (intros q ?; apply Hv; by right).
    pose proof Ho as [_ Ho']%andb_true_iff.
    pose proof (body_clear p vs tail Hp Ho Hl) as Hc.
    pose proof Hl as (_ & Ha & _ & He).
    cbn [foldl scan_step]. destruct (decide (p ∈ ps)) as [Hin|Hout].
    + rewrite contains_piece
        by (apply elem_of_app; right; apply He; [done | by left]).
      rewrite remove_pieces by done.
      destruct (left_over_step p vs tail Hp Hpv Hl) as (tail' & Heq & Hl').
      rewrite strip_pieces_concat, Heq.
      * rewrite (IH _ _ Hv' Hnd Ho' Hl'), filter_cons_True by done.
        by rewrite <- app_assoc.
      * apply Forall_forall. intros x [_ Hx]%list_elem_of_filter.
        by apply (proj1 (Forall_forall _ _) (body_solid _ _ Hl)).
    + rewrite not_contains_pieces; [| done..|].
      * rewrite (IH _ _ Hv' Hnd Ho' (left_over_skip _ _ _ Hout Hl)).
        by rewrite filter_cons_False.
      * apply Forall_forall. intros x Hx.
        destruct (proj1 (Forall_forall _ _) Hc x Hx) as [->|[?|?]];
          [|by left | by right].
        destruct Hout. apply elem_of_app in Hx as [Hx|Hx].
        -- apply tags_pieces in Hx as [?|Hx]; [done|].
           by apply good_tag_not_phrase in Hx.
        -- destruct Hl as (Hb & _). rewrite Forall_forall in Hb.
           by destruct (Hb p Hx) as [?|[? _]].
Qed.

Lemma left_over_start :
  exists tail, spaced (ts ++ ps) = spaced ts ++ tail /\
               left_over ts ps activity_types tail.
Proof.
  assert (Forall (fun w => w <> sp) (ts ++ ps)) as Hne.
  { apply Forall_app. split.
    - eapply Forall_impl; [exact Hts|]. intros t. apply good_tag_not_sp.
    - eapply Forall_impl; [exact Hps|].
      by intros p (_ & ? & _)%vocabulary_phrase. }
  assert (exists tail, spaced (ts ++ ps) = spaced ts ++ tail /\
            (forall x, x ∈ tail -> x = sp \/ x ∈ ps) /\
            (forall x, x ∈ ps -> x ∈ tail)) as (tail & Heq & Hsub & Hkeep).
  { rewrite spaced_app. destruct ts as [|t l], ps as [|q k].
    - exists []. split_and!; [done | by intros x ?%elem_of_nil | done].
    - exists (spaced (q :: k)). split; [done|]. split.
      + intros x. apply spaced_elem.
      + intros x. apply elem_spaced.
    - exists []. rewrite app_nil_r.
      split_and!; [done | by intros x ?%elem_of_nil | done].
    - exists (sp :: spaced (q :: k)). split; [done|]. split.
      + intros x [->|?%spaced_elem]%elem_of_cons; [by left | done].
      + intros x ?%elem_spaced. by right. }
  exists tail. split; [done|]. split_and!.
  - apply Forall_forall. intros x [->|Hx]%Hsub; [by left | right].
    split; [done | by apply ps_phrase].
  - rewrite <- Heq. apply alt_spaced.
  - rewrite <- Heq. by apply tight_spaced.
  - intros q Hq _. by apply Hkeep.
Qed.

Lemma scan_join :
  scan (join (ts ++ ps)) =
  (filter (fun p => p ∈ ps) activity_types, join ts).
Proof.
  destruct left_over_start as (tail & Heq & Hl).
  unfold scan, join at 1. rewrite Heq.
  by rewrite scan_left_over;
    [| | apply activity_types_NoDup | apply activity_types_ordered |].
Qed.

End ExplicitForm.

(** ** The explicit-activities form *)

Lemma concat_spaced_cons (y : str) (l : list str) (r : str) :
  gap r = true ->
  exists g, concat (spaced (y :: l)) ++ r = y ++ g /\ gap g = true.
Proof.
  intros Hr. cbn [spaced]. destruct l as [|z l].
  - exists r. cbn [concat]. by rewrite app_nil_r.
  - eexists. cbn [concat]. rewrite <- app_assoc. split; [done|]. done.
Qed.

(** " to " starts nowhere inside a joined list of words none of which is
    "to". *)
Lemma nomatch_to_spaced (items : list str) (r : str) :
  Forall (fun x =>
            (forall r', gap r' = true -> nomatch (lit " to ") x r' = true) /\
            (forall r', gap r' = true ->
                        startswith (lit "to ") (x ++ r') = false)) items ->
  gap r = true ->
  nomatch (lit " to ") (join items) r = true.
Proof.
  intros H Hr. unfold join. induction H as [|x l [Hx1 Hx2] Hl IH]; [done|].
  cbn [spaced]. destruct l as [|y l].
  - cbn [concat]. rewrite app_nil_r. by apply Hx1.
  - cbn [concat]. rewrite !nomatch_app, IH, andb_true_r.
    apply andb_true_iff. split; [by apply Hx1|].
    destruct (concat_spaced_cons y l r Hr) as (g & -> & Hg).
    inversion Hl as [|? ? [_ Hy] _]; subst.
    cbn [nomatch sp app]. change (lit " to ") with (space :: lit "to ").
    cbn [startswith]. by rewrite N.eqb_refl, (Hy g Hg).
Qed.

Lemma good_tag_to t :
  good_tag t = true ->
  (forall r, gap r = true -> nomatch (lit " to ") t r = true) /\
  (forall r, gap r = true -> startswith (lit "to ") (t ++ r) = false).
Proof.
  intros (_ & Hs & _ & Hto & _)%good_tag_facts. split; intros r Hr.
  - clear Hto. induction t as [|c t IH]; [done|].
    cbn [nomatch app]. change (lit " to ") with (space :: lit "to ").
    cbn [startswith]. destruct (N.eqb_spec space c) as [<-|_].
    + by destruct (Hs space (list_elem_of_here _ _)).
    + apply IH. intros c' Hc'. apply Hs. by right.
  - apply not_true_is_false. intros H.
    apply startswith_word in H as [H|H]; [| |done..].
    + apply startswith_spec in H as [z ->].
      apply (Hs space); [|done]. apply elem_of_app. left.
      by apply (bool_decide_unpack _).
    + by destruct Hto.
Qed.

Lemma good_tag_any t r :
  good_tag t = true -> gap r = true -> nomatch (lit "Any ") t r = true.
Proof.
  intros (_ & Hs & _ & _ & HA & _)%good_tag_facts Hr.
  by apply word_noclash.
Qed.

(** The parse of "Any <tags> <phrases> to <channel>". *)
Lemma parse_explicit_form (ts ps : list str) (C : str) :
  Forall (fun t => good_tag t = true) ts ->
  Forall (fun p => p ∈ activity_types) ps ->
  contains (lit "posts to")
           (lit "Any " ++ join (ts ++ ps) ++ lit " to " ++ C) = false ->
  exists ch,
    parse_description (lit "Any " ++ join (ts ++ ps) ++ lit " to " ++ C) =
    Some (Parsed ch
            (match ts with [] => [lit "all"] | _ :: _ => ts end)
            (filter (fun p => p ∈ ps) activity_types)).
Proof.
  intros Hts Hps Hposts. set (B := join (ts ++ ps)) in *.
  assert (Forall (fun x => good_tag x = true \/ x ∈ activity_types) (ts ++ ps))
    as Hitems.
  { apply Forall_app. split; (eapply Forall_impl; [done|]); intros; eauto. }
  destruct (split_is_cons (lit "Any ") C) as (h & t & Hsplit).
  destruct (split_head_prefix _ _ _ _ Hsplit) as [z ->].
  (* the piece after "Any " *)
  assert (split (lit "Any ") (lit "Any " ++ B ++ lit " to " ++ h ++ z) !! 1%nat =
          Some (B ++ lit " to " ++ h)) as E1.
  { rewrite split_match, split_nomatch by done || (
      apply nomatch_pieces; [done | apply alt_spaced | done |];
      apply Forall_forall; intros x [->|Hx]%spaced_elem; [by left | right];
      intros r Hr; rewrite Forall_forall in Hitems;
      destruct (Hitems x Hx) as [Ht|Hp];
      [by apply good_tag_any |
       apply vocabulary_phrase in Hp as (_ & _ & _ & _ & _ & ? & _);
       by apply noclashb_sound]).
    rewrite (split_nomatch _ (lit " to ")) by done. rewrite Hsplit.
    by cbn [prepend lookup list_lookup]. }
  (* no "posts to" in it *)
  assert (contains (lit "posts to") (B ++ lit " to " ++ h) = false) as E2.
  { apply not_contains_app in Hposts as [_ Hposts].
    replace (B ++ lit " to " ++ h ++ z) with ((B ++ lit " to " ++ h) ++ z)
      in Hposts by (by rewrite <- !app_assoc).
    by apply not_contains_app in Hposts as [? _]. }
  (* the channel *)
  assert (is_Some (split (lit " to ") (B ++ lit " to " ++ h) !! 1%nat))
    as [ch E3].
  { apply split_second; [done|]. apply contains_app_l, contains_here. }
  (* the body *)
  assert (split (lit " to ") (B ++ lit " to " ++ h) !! 0%nat = Some B) as E4.
  { rewrite split_nomatch, split_match; [by cbn; rewrite app_nil_r | done |].
    apply nomatch_to_spaced; [|done]. eapply Forall_impl; [exact Hitems|].
    intros x [Ht|Hp]; [by apply good_tag_to|].
    apply vocabulary_phrase in Hp as (_ & _ & _ & _ & _ & _ & Hn & Hc).
    split; intros r Hr; [by apply noclashb_sound | by apply clash_at_sound]. }
  exists ch. unfold parse_description.
  replace (startswith _ _) with false by reflexivity.
  rewrite E1. cbn [mbind option_bind]. rewrite E3. cbn [mbind option_bind].
  rewrite E2, E4. cbn [mbind option_bind]. unfold B.
  rewrite (scan_join ts ps Hts Hps). destruct ts as [|t0 ts']; [done|].
  change (lit " ") with sp. rewrite split_join; [| done |].
  - inversion Hts as [|? ? (Hne & _)%good_tag_facts _]; subst.
    unfold join. cbn [spaced].
    destruct t0 as [|c t0]; [done|]. by destruct ts'.
  - eapply Forall_impl; [exact Hts|].
    by intros x (_ & ? & _)%good_tag_facts.
Qed.

(** ** The scenarios of the specification, run on the model *)

Example scenario_all_post_activity :
  parse_description (normalize (lit "All post activity to Private Channel")) =
  Some (Parsed (lit "Private Channel") [lit "all"] activity_types).
Proof. reflexivity. Qed.

Example scenario_synonyms :
  parse_description
    (normalize (lit "Any aws kubernetes github amazon-web-services (added via synonyms) kube (added via synonyms) posts to <b>Engineering > Platform Engineering</b>")) =
  Some (Parsed (lit "Engineering > Platform Engineering")
          [lit "aws"; lit "kubernetes"; lit "github";
           lit "amazon-web-services"; lit "kube"]
          activity_types).
Proof. reflexivity. Qed.

Example scenario_tags_and_activities :
  parse_description
    (normalize (lit "Any admiral python aws amazon-web-services (added via synonyms) questions, answers to #admiral")) =
  Some (Parsed (lit "#admiral")
          [lit "admiral"; lit "python"; lit "aws"; lit "amazon-web-services"]
          [lit "questions"; lit "answers"]).
Proof. reflexivity. Qed.

Example scenario_activities_only :
  parse_description (normalize (lit "Any questions, answers to #help-desk")) =
  Some (Parsed (lit "#help-desk") [lit "all"] [lit "questions"; lit "answers"]).
Proof. reflexivity. Qed.

Example scenario_posts :
  parse_description (normalize (lit "Any machine-learning posts to #mits-demo")) =
  Some (Parsed (lit "#mits-demo") [lit "machine-learning"] activity_types).
Proof. reflexivity. Qed.

Example scenario_rows :
  process_webhooks
    [Row true [];
     Row false [lit " Slack "; lit "x";
                lit "Any questions, answers to <b>#help-desk</b>";
                lit "jo"; lit "2023-01-01"]] =
  Some [Webhook (lit "Slack") (lit "#help-desk") [lit "all"]
          [lit "questions"; lit "answers"] (lit "jo") (lit "2023-01-01")].
Proof. reflexivity. Qed.

(** * The properties of the parser *)

(** ** Explicit activities: which phrases and which tags *)

(** C1 (amended). For every description "Any <tags> <phrases> to <channel>"
    without "posts to", whose tags are good tags (not empty, free of white
    space, not "to", with neither "Any" nor one of the words edited, updated,
    accepted, questions, answers, comments inside) and whose phrases are
    vocabulary phrases, the parse succeeds, [activities] holds exactly the
    vocabulary phrases that are listed, in vocabulary order, and [tags] is
    the list of tags, or ["all"] when there is none.  A phrase that occurs
    only as a part of a longer listed phrase is not reported. *)
Theorem explicit_form_activities_and_tags (ts ps : list str) (C : str) :
  Forall (fun t => good_tag t = true) ts ->
  Forall (fun p => p ∈ activity_types) ps ->
  contains (lit "posts to")
           (lit "Any " ++ join (ts ++ ps) ++ lit " to " ++ C) = false ->
  exists r,
    parse_description (lit "Any " ++ join (ts ++ ps) ++ lit " to " ++ C) =
      Some r /\
    activities r = filter (fun p => p ∈ ps) activity_types /\
    (forall p, p ∈ activity_types -> p ∈ activities r <-> p ∈ ps) /\
    tags r = match ts with [] => [lit "all"] | _ :: _ => ts end.
Proof.
  intros Hts Hps Hposts.
  destruct (parse_explicit_form ts ps C Hts Hps Hposts) as [ch ->].
  eexists. split; [done|]. cbn [activities tags]. split_and!; try done.
  intros p Hp. rewrite list_elem_of_filter. tauto.
Qed.

Lemma explicit_form_activities_and_tags_witness :
  exists r,
    parse_description
      (lit "Any " ++ join ([lit "admiral"; lit "python"] ++
                           [lit "questions"; lit "answers"]) ++
       lit " to " ++ lit "#admiral") = Some r /\
    activities r =
      filter (fun p => p ∈ [lit "questions"; lit "answers"]) activity_types /\
    (forall p, p ∈ activity_types ->
               p ∈ activities r <-> p ∈ [lit "questions"; lit "answers"]) /\
    tags r = [lit "admiral"; lit "python"].
Proof.
  apply (explicit_form_activities_and_tags
           [lit "admiral"; lit "python"] [lit "questions"; lit "answers"]
           (lit "#admiral")).
  - apply (bool_decide_unpack _). vm_compute. reflexivity.
  - apply (bool_decide_unpack _). vm_compute. reflexivity.
  - vm_compute. reflexivity.
Defined.

(** C1 as the specification states it fails.  "questions" occurs in the
    first input, inside "edited questions", and is not reported, since the
    longer phrase is deleted from the body before the turn of "questions"
    comes.  In the second input the only listed phrase is "answers", yet
    "questions" is reported too, cut out of the tag "faq-questions", of which
    "faq-" stays as the tag.  Both descriptions are normalised texts without
    "posts to". *)
Lemma phrase_inside_longer_phrase_not_reported :
  (normalize (lit "Any edited questions to #x") =
     lit "Any edited questions to #x" /\
   contains (lit "posts to") (lit "Any edited questions to #x") = false /\
   lit "questions" ∈ activity_types /\
   contains (lit "questions") (lit "Any edited questions to #x") = true /\
   exists r,
     parse_description (lit "Any edited questions to #x") = Some r /\
     activities r = [lit "edited questions"] /\
     lit "questions" ∉ activities r) /\
  (normalize (lit "Any faq-questions answers to #x") =
     lit "Any faq-questions answers to #x" /\
   contains (lit "posts to") (lit "Any faq-questions answers to #x") = false /\
   exists r,
     parse_description
       (lit "Any " ++ join ([lit "faq-questions"] ++ [lit "answers"]) ++
        lit " to " ++ lit "#x") = Some r /\
     activities r = [lit "questions"; lit "answers"] /\
     tags r = [lit "faq-"]).
Proof.
  split; split_and!; try reflexivity.
  - by apply (bool_decide_unpack _).
  - eexists. split_and!; [reflexivity | done |].
    by apply (bool_decide_unpack _).
  - eexists. split_and!; reflexivity.
Qed.

(** ** The all-activity shortcut *)

(** X22. When the prefix does not occur again after itself, the channel is the
    whole remainder. *)
Lemma all_post_activity_remainder x :
  contains (lit "All post activity to ") x = false ->
  parse_description (lit "All post activity to " ++ x) =
  Some (Parsed x [lit "all"] activity_types).
Proof.
  intros H. unfold parse_description.
  replace (startswith _ _) with true
    by (symmetry; apply startswith_spec; by exists (lit " " ++ x)).
  by rewrite split_match, split_not_contains.
Qed.

(** C2 (as the code runs it). A description in which the prefix
    "All post activity to " occurs a second time loses its channel: the
    split on the prefix has three pieces and the second one, the empty text
    between the two occurrences, is taken, where the remainder after the
    prefix is "All post activity to x". *)
Theorem all_post_activity_channel_cut :
  normalize (lit "All post activity to All post activity to x") =
    lit "All post activity to All post activity to x" /\
  parse_description (lit "All post activity to All post activity to x") =
    Some (Parsed [] [lit "all"] activity_types).
Proof. split; reflexivity. Qed.

(** ** The "posts to" branch *)

(** C3 (amended). For each description "Any T posts to C" whose tag text T
    contains neither "Any" nor "posts to", the parse succeeds, [activities]
    is the full vocabulary and [tags] is the list of the pieces of T between
    single spaces, empty pieces included. *)
Theorem posts_branch_tags T C :
  contains (lit "Any") T = false ->
  contains (lit "posts to") T = false ->
  exists ch,
    parse_description (lit "Any " ++ T ++ lit " posts to " ++ C) =
    Some (Parsed ch (split (lit " ") T) activity_types).
Proof.
  intros HA HT. unfold parse_description.
  replace (startswith _ _) with false by reflexivity.
  destruct (split_is_cons (lit "Any ") C) as (h & t & Hsplit).
  assert (nomatch (lit "Any ") (T ++ lit " posts to ") C = true) as Hnm.
  { rewrite nomatch_app. apply andb_true_iff. split; [|done].
    apply (nomatch_before _ _ (lit "Any")); [simpl; lia | done..]. }
  rewrite split_match, (app_assoc T), (split_nomatch _ _ _ Hnm), Hsplit by done.
  cbn [prepend lookup list_lookup mbind option_bind]. rewrite <- app_assoc.
  assert (contains (lit " to ") (T ++ lit " posts to " ++ h) = true) as Hto.
  { apply contains_app_l.
    change (lit " posts to ") with (lit " posts" ++ lit " to ").
    rewrite <- app_assoc. apply contains_app_l, contains_here. }
  apply split_second in Hto as [ch ->]; [|done].
  cbn [mbind option_bind]. exists ch.
  replace (contains _ _) with true.
  2:{ symmetry. apply contains_app_l.
      change (lit " posts to ") with (lit " " ++ lit "posts to" ++ lit " ").
      rewrite <- !app_assoc. apply contains_app_l, contains_here. }
  rewrite split_nomatch, split_match by
    (done || by apply (nomatch_before _ _ (lit "posts to"))).
  cbn [prepend lookup list_lookup mbind option_bind].
  by rewrite app_nil_r.
Qed.

Lemma posts_branch_tags_witness :
  exists ch,
    parse_description
      (lit "Any " ++ lit "aws kubernetes" ++ lit " posts to " ++ lit "#mits-demo") =
    Some (Parsed ch (split (lit " ") (lit "aws kubernetes")) activity_types).
Proof.
  apply (posts_branch_tags (lit "aws kubernetes") (lit "#mits-demo"));
    reflexivity.
Defined.

(** C3 as the specification states it fails.  Between two adjacent spaces the
    code keeps an empty tag, it does not discard it: the tag text "a  b" is
    not empty, holds no vocabulary phrase, and gives three tags.  And the
    single tag "Any", which is no vocabulary phrase either, makes the parse
    fail, since the split on "Any " then has an empty second piece in which
    " to " does not occur.  Both descriptions are normalised texts. *)
Lemma posts_branch_keeps_empty_tokens :
  (normalize (lit "Any a  b posts to c") = lit "Any a  b posts to c" /\
   forallb (fun p => negb (contains p (lit "a  b"))) activity_types = true /\
   exists r,
     parse_description
       (lit "Any " ++ lit "a  b" ++ lit " posts to " ++ lit "c") = Some r /\
     activities r = activity_types /\
     tags r = [lit "a"; []; lit "b"] /\
     tags r <> filter (fun t => t <> []) (split (lit " ") (lit "a  b"))) /\
  (normalize (lit "Any Any posts to c") = lit "Any Any posts to c" /\
   forallb (fun p => negb (contains p (lit "Any"))) activity_types = true /\
   parse_description
     (lit "Any " ++ lit "Any" ++ lit " posts to " ++ lit "c") = None).
Proof.
  split; split_and!; try reflexivity.
  eexists. split; [reflexivity|]. by vm_compute.
Qed.

(** ** Which activities a record lists *)

(** C4 (amended). The [activities] of a returned record is empty exactly when
    the description went down the explicit-activities path (no
    "All post activity to" prefix, no "posts to") and the text before the
    first " to " holds none of the six vocabulary phrases; on every other
    completed parse it is non-empty. *)
Theorem activities_empty_iff d r :
  parse_description d = Some r ->
  activities r = [] <->
  startswith (lit "All post activity to") d = false /\
  exists rest body,
    split (lit "Any ") d !! 1%nat = Some rest /\
    contains (lit "posts to") rest = false /\
    split (lit " to ") rest !! 0%nat = Some body /\
    forall p, p ∈ activity_types -> contains p body = false.
Proof.
  intros H. apply parse_description_Some in H
    as [(Hs & ch & _ & ->) | (Hs & rest & ch & Hr & _ &
          [(Hp & b & _ & ->) | (Hp & b & Hb & ->)])]; cbn [activities].
  - split; [done | intros [? _]; congruence].
  - split; [done | intros (_ & rest' & b' & ? & ? & _)]. congruence.
  - rewrite scan_nil. split.
    + intros Hn. split; [done|]. by exists rest, b.
    + intros (_ & rest' & b' & ? & _ & ? & Hn). by simplify_eq.
Qed.

Lemma activities_empty_iff_witness :
  activities (Parsed (lit "#x") [lit "aws"] []) = [] <->
  startswith (lit "All post activity to") (lit "Any aws to #x") = false /\
  exists rest body,
    split (lit "Any ") (lit "Any aws to #x") !! 1%nat = Some rest /\
    contains (lit "posts to") rest = false /\
    split (lit " to ") rest !! 0%nat = Some body /\
    forall p, p ∈ activity_types -> contains p body = false.
Proof.
  apply (activities_empty_iff (lit "Any aws to #x")). reflexivity.
Defined.

(** C4 as the specification states it fails: a tag followed by no activity
    phrase parses to completion with no activity at all. *)
Lemma activities_can_be_empty :
  normalize (lit "Any aws to #x") = lit "Any aws to #x" /\
  exists r, parse_description (lit "Any aws to #x") = Some r /\
            activities r = [].
Proof. split; [reflexivity|]. eexists. split; reflexivity. Qed.

(** ** Failures *)

(** C5 (amended). The parse fails exactly when a split has no second piece:
    under the prefix "All post activity to" when "All post activity to "
    (with its space) does not occur; otherwise when "Any " does not occur, or
    when " to " does not occur in the piece after the first "Any ".  An
    empty channel text is no failure. *)
Theorem parse_fails_iff_separator_missing d :
  parse_description d = None <->
  if startswith (lit "All post activity to") d
  then contains (lit "All post activity to ") d = false
  else contains (lit "Any ") d = false \/
       exists rest, split (lit "Any ") d !! 1%nat = Some rest /\
                    contains (lit " to ") rest = false.
Proof. apply parse_description_None. Qed.

(** C5 as the specification states it fails: a record with an empty channel
    is returned. *)
Lemma empty_channel_is_returned :
  normalize (lit "Any questions to  to #x") = lit "Any questions to  to #x" /\
  exists r, parse_description (lit "Any questions to  to #x") = Some r /\
            channel r = [].
Proof. split; [reflexivity|]. eexists. split; reflexivity. Qed.

(** C6 (amended). A description that does not start with
    "All post activity to" and in which "Any " occurs nowhere fails to
    parse. *)
Theorem parse_fails_without_any d :
  startswith (lit "All post activity to") d = false ->
  contains (lit "Any ") d = false ->
  parse_description d = None.
Proof.
  intros Hs HA. apply parse_description_None. rewrite Hs. by left.
Qed.

Lemma parse_fails_without_any_witness :
  parse_description (lit "Some unexpected phrasing to #x") = None.
Proof.
  apply (parse_fails_without_any (lit "Some unexpected phrasing to #x"));
    reflexivity.
Defined.

(** C6 as the specification states it fails: "Any " further inside the text
    is enough for the split, and a record is produced. *)
Lemma any_inside_is_parsed :
  normalize (lit "Re: Any aws posts to #x") = lit "Re: Any aws posts to #x" /\
  startswith (lit "All post activity to ") (lit "Re: Any aws posts to #x") = false /\
  startswith (lit "Any ") (lit "Re: Any aws posts to #x") = false /\
  parse_description (lit "Re: Any aws posts to #x") =
  Some (Parsed (lit "#x") [lit "aws"] activity_types).
Proof. repeat split. Qed.

(** ** The channel of the explicit-activities branch *)

(** C7 (as the code runs it). With " to " twice after "Any ", the channel is
    the text between the first and the second " to ", not all that
    follows the first one. *)
Theorem channel_cut_at_second_to :
  normalize (lit "Any questions to Intro to Python") =
    lit "Any questions to Intro to Python" /\
  parse_description (lit "Any questions to Intro to Python") =
    Some (Parsed (lit "Intro") [lit "all"] [lit "questions"]).
Proof. split; reflexivity. Qed.

(** ** The normaliser *)

(** No line break and no comma is left in a normalised text. *)
Lemma normalize_clean text :
  (newline ∉ normalize text) /\ (carriage_return ∉ normalize text) /\
  ((44 : char) ∉ normalize text).
Proof.
  unfold normalize, strip_html. change (lit ",") with [44 : char].
  split; [|split].
  - intros H. do 2 apply remove_elem in H. apply strip_elem in H.
    apply remove_elem in H. by apply remove_char_gone in H.
  - intros H. do 2 apply remove_elem in H. apply strip_elem in H.
    by apply remove_char_gone in H.
  - apply remove_char_gone.
Qed.


Section Deletions.

Implicit Types (s old a b : str) (c x : char).














End Deletions.




(** ** No tag before the phrases *)

(** C9 (amended). For every description "Any <phrases> to <channel>" made
    of vocabulary phrases only, with no tag before them, in which "posts to"
    does not occur (so that the explicit-activities path is taken), nothing
    is left of the body once the phrases are deleted and the parser returns
    [tags] = ["all"]. *)
Theorem no_tags_means_all (ps : list str) (C : str) :
  Forall (fun p => p ∈ activity_types) ps ->
  contains (lit "posts to") (lit "Any " ++ join ps ++ lit " to " ++ C) = false ->
  (scan (join ps)).2 = [] /\
  exists r,
    parse_description (lit "Any " ++ join ps ++ lit " to " ++ C) = Some r /\
    tags r = [lit "all"].
Proof.
  intros Hps Hposts. split.
  - pose proof (scan_join [] ps (Forall_nil_2 _) Hps) as H.
    cbn [app] in H. by rewrite H.
  - destruct (parse_explicit_form [] ps C (Forall_nil_2 _) Hps Hposts)
      as [ch H].
    cbn [app] in H. rewrite H. by eexists.
Qed.

Lemma no_tags_means_all_witness :
  (scan (join [lit "questions"; lit "answers"])).2 = [] /\
  exists r,
    parse_description
      (lit "Any " ++ join [lit "questions"; lit "answers"] ++
       lit " to " ++ lit "#help-desk") = Some r /\
    tags r = [lit "all"].
Proof.
  apply (no_tags_means_all [lit "questions"; lit "answers"] (lit "#help-desk")).
  - apply (bool_decide_unpack _). vm_compute. reflexivity.
  - vm_compute. reflexivity.
Defined.

(** C9 as the specification states it fails: the test ['posts to' in
    description] comes first and looks at the channel as well.  The
    normalised description "Any questions to posts to x" is made of one
    vocabulary phrase, with no tag before it, and nothing is left of its body
    "questions" once the phrases are deleted; yet the tagged path is taken,
    the text before " posts to " is split on spaces, and the tags are
    "questions" and "to", with every activity reported. *)
Lemma posts_to_in_channel_gives_tags :
  normalize (lit "Any questions to posts to x") =
    lit "Any questions to posts to x" /\
  Forall (fun p => p ∈ activity_types) [lit "questions"] /\
  (scan (join [lit "questions"])).2 = [] /\
  contains (lit "posts to")
    (lit "Any " ++ join [lit "questions"] ++ lit " to " ++ lit "posts to x") =
    true /\
  parse_description
    (lit "Any " ++ join [lit "questions"] ++ lit " to " ++ lit "posts to x") =
    Some (Parsed (lit "posts") [lit "questions"; lit "to"] activity_types) /\
  [lit "questions"; lit "to"] <> [lit "all"].
Proof.
  split_and!; try (vm_compute; reflexivity).
  - apply (bool_decide_unpack _). vm_compute. reflexivity.
  - discriminate.
Qed.

(** ** The order of the activities *)

(** C10. The [activities] of every returned record is a subsequence of the
    vocabulary in vocabulary order, without duplicates and with no string
    from outside the vocabulary; on the two all-activity paths it is the
    whole vocabulary. *)
Theorem activities_subsequence_of_vocabulary d r :
  parse_description d = Some r ->
  activities r `sublist_of` activity_types /\
  NoDup (activities r) /\
  (forall p, p ∈ activities r -> p ∈ activity_types) /\
  (startswith (lit "All post activity to") d = true \/
   (exists rest, split (lit "Any ") d !! 1%nat = Some rest /\
                 contains (lit "posts to") rest = true) ->
   activities r = activity_types).
Proof.
  intros H. assert (activities r `sublist_of` activity_types) as Hsub.
  { apply parse_description_Some in H
      as [(_ & ch & _ & ->) | (_ & rest & ch & _ & _ &
            [(_ & b & _ & ->) | (_ & b & _ & ->)])]; cbn [activities];
      first [done | apply scan_sublist]. }
  split; [done|]. split; [|split].
  - apply (sublist_NoDup _ activity_types); [apply activity_types_NoDup | done].
  - intros p Hp. apply (elem_of_sublist _ _ _ Hp Hsub).
  - apply parse_description_Some in H
      as [(_ & ch & _ & ->) | (Hs & rest & ch & Hr & _ &
            [(_ & b & _ & ->) | (Hp & b & _ & ->)])]; cbn [activities];
      try done.
    intros [? | (rest' & ? & ?)]; congruence.
Qed.

Lemma activities_subsequence_of_vocabulary_witness :
  let r := Parsed (lit "#help-desk") [lit "all"] [lit "questions"; lit "answers"] in
  activities r `sublist_of` activity_types /\
  NoDup (activities r) /\
  (forall p, p ∈ activities r -> p ∈ activity_types) /\
  (startswith (lit "All post activity to")
     (lit "Any questions answers to #help-desk") = true \/
   (exists rest,
      split (lit "Any ") (lit "Any questions answers to #help-desk") !! 1%nat
        = Some rest /\
      contains (lit "posts to") rest = true) ->
   activities r = activity_types).
Proof.
  apply (activities_subsequence_of_vocabulary
           (lit "Any questions answers to #help-desk")).
  reflexivity.
Defined.

(** * Further properties of the code *)

(** ** The pieces of a split *)

Lemma split_ind sep (P : str -> list str -> Prop) :
  sep <> [] ->
  P [] [[]] ->
  (forall r, P r (split sep r) -> P (sep ++ r) ([] :: split sep r)) ->
  (forall c s, startswith sep (c :: s) = false -> P s (split sep s) ->
               P (c :: s) (prepend [c] (split sep s))) ->
  forall s, P s (split sep s).
Proof.
  intros Hsep H0 Hm Hc s. remember (length s) as n eqn:Hn. revert s Hn.
  induction n as [n IH] using lt_wf_ind. intros [|c s] Hn; [done|].
  destruct (startswith sep (c :: s)) eqn:E.
  - apply startswith_spec in E as [r Hr]. rewrite Hr in *.
    rewrite split_match by done. apply Hm. eapply IH; [|done].
    rewrite Hn, length_app. destruct sep; [done | simpl; lia].
  - rewrite split_cons by done. apply Hc; [done|]. eapply IH; [|done].
    simpl in Hn. lia.
Qed.

(** No piece contains the separator. *)
Lemma split_pieces_no_sep sep s :
  sep <> [] -> Forall (fun p => contains sep p = false) (split sep s).
Proof.
  intros Hsep. apply (split_ind sep (fun s l =>
    Forall (fun p => contains sep p = false) l)); [done | | |].
  - constructor; [|done]. by destruct sep.
  - intros r Hr. constructor; [by destruct sep | done].
  - intros c t Hc Ht.
    destruct (split sep t) as [|h k] eqn:E; [by destruct (split_is_cons sep t) as (?&?&?); congruence|].
    destruct (split_head_prefix _ _ _ _ E) as [z ->].
    inversion Ht as [|? ? Hh Hk]; subst. constructor; [|done].
    cbn [app contains]. rewrite Hh, orb_false_r.
    apply not_true_is_false. intros [w Hw]%startswith_spec.
    assert (startswith sep (c :: h ++ z) = true) as Hs; [|congruence].
    apply startswith_spec. exists (w ++ z).
    rewrite app_assoc, <- Hw. done.
Qed.

(** Every character of a piece is a character of the text. *)
Lemma split_pieces_elem sep s p c :
  sep <> [] -> p ∈ split sep s -> c ∈ p -> c ∈ s.
Proof.
  intros Hsep. revert p. apply (split_ind sep (fun s l =>
    forall p, p ∈ l -> c ∈ p -> c ∈ s)); [done | | |].
  - by intros p ->%list_elem_of_singleton.
  - intros r IH p [->|Hp]%elem_of_cons Hc; [by apply elem_of_nil in Hc|].
    apply elem_of_app. right. by eapply IH.
  - intros x t _ IH p Hp Hc.
    destruct (split sep t) as [|h k]; simpl in Hp.
    + apply list_elem_of_singleton in Hp as ->.
      apply list_elem_of_singleton in Hc as ->. by left.
    + apply elem_of_cons in Hp as [->|Hp].
      * apply elem_of_cons in Hc as [->|Hc]; [by left | right].
        apply (IH h); [by left | done].
      * right. apply (IH p); [by right | done].
Qed.

Lemma not_contains_char c t : contains [c] t = false -> c ∉ t.
Proof.
  induction t as [|y t IH]; [by intros _ ?%elem_of_nil|].
  cbn [contains startswith]. rewrite andb_true_r.
  intros [Hy Ht]%orb_false_iff. apply not_elem_of_cons. split; [|by apply IH].
  intros ->. by rewrite N.eqb_refl in Hy.
Qed.

Lemma scan_step_rest_elem vs acts b c :
  c ∈ (foldl scan_step (acts, b) vs).2 -> c ∈ b.
Proof.
  revert acts b. induction vs as [|p vs IH]; intros acts b; [done|].
  cbn [foldl scan_step]. destruct (contains p b).
  - intros H%IH. by apply strip_elem, remove_elem in H.
  - apply IH.
Qed.

(** ** What the parser puts in a record *)

Lemma parse_description_tags d r :
  parse_description d = Some r ->
  tags r <> [] /\ forall t, t ∈ tags r -> space ∉ t.
Proof.
  assert (forall s, split sp s <> [] /\ forall t, t ∈ split sp s -> space ∉ t)
    as Hsplit.
  { intros s. split.
    - by destruct (split_is_cons sp s) as (h & k & ->).
    - intros t Ht. apply not_contains_char.
      by apply (proj1 (Forall_forall _ _) (split_pieces_no_sep sp s ltac:(done))). }
  assert (tags (Parsed [] [lit "all"] []) <> [] /\
          forall t, t ∈ [lit "all"] -> space ∉ t) as [_ Hall].
  { split; [done|]. intros t ->%list_elem_of_singleton.
    by apply (bool_decide_unpack _). }
  intros H. apply parse_description_Some in H
    as [(_ & ch & _ & ->) | (_ & rest & ch & _ & _ &
          [(_ & b & _ & ->) | (_ & b & _ & ->)])]; cbn [tags].
  - done.
  - apply Hsplit.
  - destruct (scan b).2; [done | apply Hsplit].
Qed.

(** X1. The [tags] of a returned record always hold one tag at least, and no
    tag contains a space. *)
Theorem tags_nonempty_and_space_free d r :
  parse_description d = Some r ->
  tags r <> [] /\ forall t, t ∈ tags r -> space ∉ t.
Proof. apply parse_description_tags. Qed.

Lemma tags_nonempty_and_space_free_witness :
  let r := Parsed (lit "c") [lit "a"; []; lit "b"] activity_types in
  tags r <> [] /\ forall t, t ∈ tags r -> space ∉ t.
Proof.
  apply (tags_nonempty_and_space_free (lit "Any a  b posts to c")).
  reflexivity.
Defined.

(** X2. The [channel] of a returned record never contains the separator it
    was cut off at: the prefix "All post activity to " on the all-activity
    path, " to " on the others. *)
Theorem channel_without_separator d r :
  parse_description d = Some r ->
  if startswith (lit "All post activity to") d
  then contains (lit "All post activity to ") (channel r) = false
  else contains (lit " to ") (channel r) = false.
Proof.
  assert (forall sep s ch, sep <> [] -> split sep s !! 1%nat = Some ch ->
                           contains sep ch = false) as Hpiece.
  { intros sep s ch Hsep Hch%list_elem_of_lookup_2.
    by apply (proj1 (Forall_forall _ _) (split_pieces_no_sep sep s Hsep)). }
  intros H. apply parse_description_Some in H
    as [(-> & ch & Hch & ->) | (-> & rest & ch & _ & Hch &
          [(_ & b & _ & ->) | (_ & b & _ & ->)])]; cbn [channel];
    by eapply Hpiece.
Qed.

Lemma channel_without_separator_witness :
  contains (lit " to ") (channel (Parsed (lit "Intro") [lit "all"] [lit "questions"])) = false.
Proof.
  apply (channel_without_separator (lit "Any questions to Intro to Python")).
  reflexivity.
Defined.

Lemma parse_description_chars d r :
  parse_description d = Some r ->
  (forall c, c ∈ channel r -> c ∈ d) /\
  (forall t, t ∈ tags r -> t = lit "all" \/ forall c, c ∈ t -> c ∈ d).
Proof.
  assert (forall sep s i p c, split sep s !! i = Some p -> sep <> [] ->
                              c ∈ p -> c ∈ s) as Hpiece.
  { intros sep s i p c Hp%list_elem_of_lookup_2 Hsep.
    by apply (split_pieces_elem sep s p c). }
  intros H. apply parse_description_Some in H
    as [(_ & ch & Hch & ->) | (_ & rest & ch & Hrest & Hch &
          [(_ & b & Hb & ->) | (_ & b & Hb & ->)])]; cbn [channel tags].
  - split; [intros c Hc; by apply (Hpiece _ _ _ _ c Hch)|].
    intros t ->%list_elem_of_singleton. by left.
  - split.
    + intros c Hc. apply (Hpiece _ _ _ _ c Hrest); [done|].
      by apply (Hpiece _ _ _ _ c Hch).
    + intros t Ht. right. intros c Hc.
      apply (Hpiece _ _ _ _ c Hrest); [done|].
      apply (Hpiece _ _ _ _ c Hb); [done|].
      by apply (split_pieces_elem (lit " ") _ t).
  - split.
    + intros c Hc. apply (Hpiece _ _ _ _ c Hrest); [done|].
      by apply (Hpiece _ _ _ _ c Hch).
    + intros t Ht. destruct (scan b).2 as [|x rem] eqn:E.
      * apply list_elem_of_singleton in Ht as ->. by left.
      * right. intros c Hc.
        apply (Hpiece _ _ _ _ c Hrest); [done|].
        apply (Hpiece _ _ _ _ c Hb); [done|].
        apply (scan_step_rest_elem activity_types []). fold (scan b).
        rewrite E. by apply (split_pieces_elem (lit " ") _ t).
Qed.

(** X3. Every character of the [channel] of a returned record is a character
    of the description, and so is every character of every tag other than
    the tag "all". *)
Theorem channel_and_tags_from_description d r :
  parse_description d = Some r ->
  (forall c, c ∈ channel r -> c ∈ d) /\
  (forall t, t ∈ tags r -> t = lit "all" \/ forall c, c ∈ t -> c ∈ d).
Proof. apply parse_description_chars. Qed.

Lemma channel_and_tags_from_description_witness :
  let d := lit "Any aws k8s questions to #ops" in
  let r := Parsed (lit "#ops") [lit "aws"; lit "k8s"] [lit "questions"] in
  (forall c, c ∈ channel r -> c ∈ d) /\
  (forall t, t ∈ tags r -> t = lit "all" \/ forall c, c ∈ t -> c ∈ d).
Proof.
  apply (channel_and_tags_from_description (lit "Any aws k8s questions to #ops")).
  reflexivity.
Defined.

(** X4. When the text after "Any " is [a ++ " to " ++ b], with no further
    "Any " in it, no " to" in [a] and no " to " in [b], the parse succeeds
    and the [channel] is all of [b]. *)
Theorem channel_after_single_to a b :
  contains (lit "Any ") (a ++ lit " to " ++ b) = false ->
  contains (lit " to") a = false ->
  contains (lit " to ") b = false ->
  exists r, parse_description (lit "Any " ++ a ++ lit " to " ++ b) = Some r /\
            channel r = b.
Proof.
  intros HA Ha Hb. set (d := lit "Any " ++ a ++ lit " to " ++ b).
  assert (startswith (lit "All post activity to") d = false) as Hs by done.
  assert (split (lit "Any ") d !! 1%nat = Some (a ++ lit " to " ++ b)) as Hrest.
  { unfold d. by rewrite split_match, split_not_contains. }
  assert (split (lit " to ") (a ++ lit " to " ++ b) = [a; b]) as Hsplit.
  { rewrite split_nomatch, split_match, split_not_contains by
      (done || by apply (nomatch_before _ _ (lit " to"))).
    cbn [prepend]. by rewrite app_nil_r. }
  destruct (parse_description d) as [r|] eqn:E.
  - exists r. split; [done|].
    apply parse_description_Some in E
      as [(? & _) | (_ & rest & ch & Hr & Hch &
            [(_ & x & _ & ->) | (_ & x & _ & ->)])]; [congruence|..];
      (assert (rest = a ++ lit " to " ++ b) as -> by congruence);
      rewrite Hsplit in Hch; cbn [channel lookup list_lookup] in *; congruence.
  - apply parse_description_None in E. rewrite Hs in E.
    destruct E as [E | (rest & Hr & E)].
    + apply split_second_none in E; [congruence | done].
    + assert (rest = a ++ lit " to " ++ b) as -> by congruence.
      apply split_second_none in E; [|done]. by rewrite Hsplit in E.
Qed.

Lemma channel_after_single_to_witness :
  exists r,
    parse_description
      (lit "Any " ++ lit "aws posts" ++ lit " to " ++ lit "Engineering > Platform") =
      Some r /\
    channel r = lit "Engineering > Platform".
Proof.
  apply (channel_after_single_to (lit "aws posts") (lit "Engineering > Platform"));
    reflexivity.
Defined.

Lemma all_post_activity_remainder_witness :
  parse_description (lit "All post activity to " ++ lit "Private Channel > Private Channel") =
  Some (Parsed (lit "Private Channel > Private Channel") [lit "all"] activity_types).
Proof.
  apply (all_post_activity_remainder (lit "Private Channel > Private Channel")).
  reflexivity.
Defined.

(** ** strip_html and the normaliser delete, and nothing else *)

Lemma sub_tags_sublist k s : sub_tags k s `sublist_of` s.
Proof.
  revert k. induction s as [|c s IH]; intros k; [done|].
  cbn [sub_tags]. destruct k as [|k]; [|by apply sublist_cons].
  destruct (if c =? lt_sign then tag_len s else None);
    [by apply sublist_cons | by apply sublist_skip].
Qed.

Lemma remove_sublist old s : remove old s `sublist_of` s.
Proof.
  destruct old as [|x old]; [done|]. unfold remove.
  generalize 0%nat. induction s as [|c s IH]; intros k; [done|].
  cbn [remove_go]. destruct k as [|k]; [|by apply sublist_cons].
  destruct (startswith (x :: old) (c :: s));
    [by apply sublist_cons | by apply sublist_skip].
Qed.

Lemma lstrip_suffix s : exists k, s = k ++ lstrip s.
Proof.
  induction s as [|c s [k IH]]; [by exists []|]. simpl.
  destruct (isspace c); [|by exists []].
  exists (c :: k). by rewrite IH at 1.
Qed.

Lemma rstrip_prefix s : exists k, s = rstrip s ++ k.
Proof.
  unfold rstrip. destruct (lstrip_suffix (rev s)) as [k Hk].
  exists (rev k). by rewrite <- rev_app_distr, <- Hk, rev_involutive.
Qed.

Lemma strip_sublist s : strip s `sublist_of` s.
Proof.
  unfold strip. destruct (lstrip_suffix s) as [k Hk].
  destruct (rstrip_prefix (lstrip s)) as [k' Hk'].
  rewrite Hk at 2. apply sublist_inserts_l.
  rewrite Hk' at 2. by apply sublist_inserts_r.
Qed.

Lemma strip_html_sublist text : strip_html text `sublist_of` text.
Proof.
  unfold strip_html. etrans; [apply strip_sublist|].
  etrans; [apply remove_sublist|]. etrans; [apply remove_sublist|].
  apply sub_tags_sublist.
Qed.

Lemma strip_html_no_breaks text :
  (newline ∉ strip_html text) /\ (carriage_return ∉ strip_html text).
Proof.
  unfold strip_html. split.
  - intros H%strip_elem%remove_elem. by apply remove_char_gone in H.
  - intros H%strip_elem. by apply remove_char_gone in H.
Qed.

(** X5. [strip_html] and [normalize] only delete characters: the result is a
    subsequence of the text, and so no longer than it. *)
Theorem strip_html_only_deletes text :
  strip_html text `sublist_of` text /\
  normalize text `sublist_of` text /\
  (length (normalize text) <= length (strip_html text) <= length text)%nat.
Proof.
  pose proof (strip_html_sublist text) as H1.
  assert (normalize text `sublist_of` strip_html text) as H2.
  { unfold normalize. etrans; apply remove_sublist. }
  split; [done|]. split; [by etrans|].
  split; by apply sublist_length.
Qed.

Lemma lstrip_head s c : head (lstrip s) = Some c -> isspace c = false.
Proof.
  induction s as [|y s IH]; [done|]. simpl.
  destruct (isspace y) eqn:E; [done|]. by intros [= <-].
Qed.

Lemma rstrip_last s c : last (rstrip s) = Some c -> isspace c = false.
Proof.
  unfold rstrip. intros H. apply (lstrip_head (rev s)).
  rewrite <- H. clear H. generalize (lstrip (rev s)). intros l.
  rewrite rev_alt. symmetry. apply (last_reverse l).
Qed.

Lemma rstrip_head s c :
  head (rstrip s) = Some c -> head s = Some c.
Proof.
  destruct (rstrip_prefix s) as [k Hk]. rewrite Hk at 2.
  by destruct (rstrip s).
Qed.

(** What [strip] returns is empty or a word that [strip] leaves alone. *)
Lemma strip_solid s : strip s = [] \/ solidb (strip s) = true.
Proof.
  unfold strip, solidb. destruct (rstrip (lstrip s)) as [|c k] eqn:E;
    [by left | right].
  assert (isspace c = false) as Hc.
  { apply (lstrip_head s), rstrip_head. by rewrite E. }
  destruct (last (c :: k)) as [e|] eqn:El; [|by apply last_None in El].
  rewrite <- E in El. apply rstrip_last in El. by rewrite Hc, El.
Qed.

Lemma strip_idempotent s : strip (strip s) = strip s.
Proof.
  destruct (strip_solid s) as [->|H]; [done|].
  unfold strip at 1. by rewrite solidb_lstrip, solidb_rstrip.
Qed.

(** X6. What [strip_html] returns holds no newline and no carriage return,
    and neither begins nor ends with a white-space character. *)
Theorem strip_html_trimmed text :
  (newline ∉ strip_html text) /\ (carriage_return ∉ strip_html text) /\
  (forall c, head (strip_html text) = Some c -> isspace c = false) /\
  (forall c, last (strip_html text) = Some c -> isspace c = false).
Proof.
  destruct (strip_html_no_breaks text) as [Hn Hr].
  split_and!; [done | done | |]; unfold strip_html.
  - intros c H. apply rstrip_head in H. by apply lstrip_head in H.
  - intros c H. by apply rstrip_last in H.
Qed.

(** X7. On a text without "<", [strip_html] is idempotent. *)
Theorem strip_html_idempotent_without_lt text :
  lt_sign ∉ text -> strip_html (strip_html text) = strip_html text.
Proof.
  intros Hlt. destruct (strip_html_no_breaks text) as (Hn & Hr).
  assert (lt_sign ∉ strip_html text) as Hlt'.
  { intros H. apply Hlt. eapply elem_of_sublist; [done|].
    apply strip_html_sublist. }
  set (r := strip_html text) in *. unfold strip_html at 1.
  rewrite (sub_tags_no_lt _ Hlt'), (remove_char_absent _ _ Hn),
    (remove_char_absent _ _ Hr).
  unfold r, strip_html. apply strip_idempotent.
Qed.

Lemma strip_html_idempotent_without_lt_witness :
  strip_html (strip_html (lit "  Slack webhook ")) =
  strip_html (lit "  Slack webhook ").
Proof.
  apply (strip_html_idempotent_without_lt (lit "  Slack webhook ")).
  by apply (bool_decide_unpack _).
Defined.

Lemma sub_tags_skip k s : sub_tags k s = sub_tags 0 (drop k s).
Proof.
  revert k. induction s as [|c s IH]; intros [|k]; try done.
  cbn [sub_tags drop]. apply IH.
Qed.

Lemma tag_scan_name name rest :
  lt_sign ∉ name -> gt_sign ∉ name ->
  tag_scan (name ++ gt_sign :: rest) = Some (S (length name)).
Proof.
  induction name as [|c name IH]; [done|].
  intros [Hl Hln]%not_elem_of_cons [Hg Hgn]%not_elem_of_cons.
  cbn [app tag_scan length].
  destruct (N.eqb_spec c gt_sign) as [?|_]; [done|].
  destruct (N.eqb_spec c lt_sign) as [?|_]; [done|].
  by rewrite IH.
Qed.

(** X8. A tag, that is "<", a name that is not empty and holds neither "<"
    nor ">", and ">", is deleted whole by the substitution, and the text
    before it stays when it holds no "<". *)
Theorem sub_tags_deletes_tag before name rest :
  lt_sign ∉ before -> name <> [] -> lt_sign ∉ name -> gt_sign ∉ name ->
  sub_tags 0 (before ++ lt_sign :: name ++ gt_sign :: rest) =
  before ++ sub_tags 0 rest.
Proof.
  intros Hb Hne Hl Hg. induction before as [|c before IH].
  - cbn [app sub_tags]. rewrite N.eqb_refl.
    destruct name as [|x name]; [done|].
    apply not_elem_of_cons in Hl as [Hx Hl].
    apply not_elem_of_cons in Hg as [_ Hg].
    cbn [app tag_len]. destruct (N.eqb_spec x lt_sign) as [?|_]; [done|].
    rewrite tag_scan_name by done. cbn [fmap option_fmap option_map].
    rewrite sub_tags_skip. cbn [drop].
    change (gt_sign :: rest) with ([gt_sign] ++ rest).
    rewrite app_assoc, drop_app_length'; [done|].
    rewrite length_app. simpl. lia.
  - apply not_elem_of_cons in Hb as [Hc Hb]. cbn [app sub_tags].
    destruct (N.eqb_spec c lt_sign) as [?|_]; [done|]. by rewrite IH.
Qed.

Lemma sub_tags_deletes_tag_witness :
  sub_tags 0 (lit "to " ++ lt_sign :: lit "b" ++ gt_sign :: lit "#x</b>") =
  lit "to " ++ sub_tags 0 (lit "#x</b>").
Proof.
  apply (sub_tags_deletes_tag (lit "to ") (lit "b") (lit "#x</b>"));
    first [done | by apply (bool_decide_unpack _)].
Defined.

(** X9. What [normalize] returns holds no comma, no newline and no carriage
    return. *)
Theorem normalize_without_commas_and_breaks text :
  ((44 : char) ∉ normalize text) /\ (newline ∉ normalize text) /\
  (carriage_return ∉ normalize text).
Proof. destruct (normalize_clean text) as (Hn & Hr & Hc). done. Qed.

(** ** The loop over the rows *)

Lemma process_webhooks_cons r rows :
  process_webhooks (r :: rows) =
  if has_th r then process_webhooks rows
  else w ← row_webhook r; ws ← process_webhooks rows; Some (w :: ws).
Proof.
  cbn [process_webhooks]. destruct (has_th r); [done|]. unfold row_webhook.
  destruct (columns r !! 2%nat); [|done]. cbn [mbind option_bind].
  destruct (parse_description _); [|done]. cbn [mbind option_bind].
  destruct (columns r !! 0%nat); [|done]. cbn [mbind option_bind].
  destruct (columns r !! 3%nat); [|done]. cbn [mbind option_bind].
  by destruct (columns r !! 4%nat).
Qed.

Lemma row_webhook_Some r w : row_webhook r = Some w <-> webhook_of_row r w.
Proof.
  unfold row_webhook, webhook_of_row. split.
  - destruct (columns r !! 2%nat) as [text|]; [|done]. cbn [mbind option_bind].
    destruct (parse_description _) as [[ch tg ac]|] eqn:E; [|done].
    cbn [mbind option_bind].
    destruct (columns r !! 0%nat) as [type|]; [|done]. cbn [mbind option_bind].
    destruct (columns r !! 3%nat); [|done]. cbn [mbind option_bind].
    destruct (columns r !! 4%nat); [|done]. cbn [mbind option_bind].
    intros [= <-]. cbn. eauto 10.
  - destruct w as [ty ch tg ac cr da]. cbn.
    intros ((type & -> & ->) & (text & -> & Hp) & -> & ->).
    cbn [mbind option_bind]. by rewrite Hp.
Qed.

Lemma row_webhook_None r :
  row_webhook r = None <->
  (length (columns r) < 5)%nat \/
  exists text, columns r !! 2%nat = Some text /\
               parse_description (normalize text) = None.
Proof.
  unfold row_webhook. split.
  - destruct (columns r !! 2%nat) as [text|] eqn:E2; cbn [mbind option_bind];
      [|apply lookup_ge_None in E2; left; lia].
    destruct (parse_description _) eqn:Ep; cbn [mbind option_bind]; [|eauto].
    destruct (columns r !! 0%nat) eqn:E0; cbn [mbind option_bind];
      [|apply lookup_ge_None in E0; left; lia].
    destruct (columns r !! 3%nat) eqn:E3; cbn [mbind option_bind];
      [|apply lookup_ge_None in E3; left; lia].
    destruct (columns r !! 4%nat) eqn:E4; cbn [mbind option_bind];
      [done | apply lookup_ge_None in E4; left; lia].
  - intros [Hl | (text & H2 & Hp)];
      [|by rewrite H2; cbn [mbind option_bind]; rewrite Hp].
    assert (columns r !! 4%nat = None) as E4 by (apply lookup_ge_None; lia).
    destruct (columns r !! 2%nat); [|done]. cbn [mbind option_bind].
    destruct (parse_description _); [|done]. cbn [mbind option_bind].
    destruct (columns r !! 0%nat); [|done]. cbn [mbind option_bind].
    destruct (columns r !! 3%nat); [|done]. cbn [mbind option_bind].
    by rewrite E4.
Qed.

Lemma process_webhooks_Some rows ws :
  process_webhooks rows = Some ws <->
  Forall2 (fun r w => row_webhook r = Some w)
          (filter (fun r => has_th r = false) rows) ws.
Proof.
  revert ws. induction rows as [|r rows IH]; intros ws.
  - cbn. split; [intros [= <-]; constructor | by intros ->%Forall2_nil_inv_l].
  - rewrite process_webhooks_cons. destruct (has_th r) eqn:E.
    + rewrite filter_cons_False by (by rewrite E). apply IH.
    + rewrite filter_cons_True by done. split.
      * destruct (row_webhook r) as [w|] eqn:Er; cbn [mbind option_bind];
          [|done].
        destruct (process_webhooks rows) as [ws'|] eqn:E';
          cbn [mbind option_bind]; [|done].
        intros [= <-]. constructor; [done | by apply IH].
      * intros (w & ws' & -> & Hws%IH & ->)%Forall2_cons_inv_l.
        cbn [mbind option_bind]. by rewrite Hws.
Qed.

(** X10. Header rows count for nothing: the result is that of the rows
    without [th] alone. *)
Theorem process_webhooks_skips_headers rows :
  process_webhooks (filter (fun r => has_th r = false) rows) =
  process_webhooks rows.
Proof.
  induction rows as [|r rows IH]; [done|].
  destruct (has_th r) eqn:E.
  - rewrite filter_cons_False by (by rewrite E).
    by rewrite (process_webhooks_cons r), E.
  - rewrite filter_cons_True by done.
    by rewrite !process_webhooks_cons, E, IH.
Qed.

Lemma process_webhooks_concat rows1 rows2 :
  process_webhooks (rows1 ++ rows2) =
  ws1 ← process_webhooks rows1; ws2 ← process_webhooks rows2;
  Some (ws1 ++ ws2).
Proof.
  induction rows1 as [|r rows1 IH].
  - cbn. by destruct (process_webhooks rows2).
  - cbn [app]. rewrite !process_webhooks_cons, IH.
    destruct (has_th r); [done|].
    destruct (row_webhook r); [|done]. cbn [mbind option_bind].
    destruct (process_webhooks rows1); [|done]. cbn [mbind option_bind].
    by destruct (process_webhooks rows2).
Qed.

(** X11. The records of two lists of rows put end to end are the records of
    the first followed by the records of the second, and the call fails when
    either part fails. *)
Theorem process_webhooks_app rows1 rows2 :
  process_webhooks (rows1 ++ rows2) =
  ws1 ← process_webhooks rows1; ws2 ← process_webhooks rows2;
  Some (ws1 ++ ws2).
Proof. apply process_webhooks_concat. Qed.

(** X12. The whole call fails exactly when some row without [th] has fewer
    than five cells or a description that does not parse. *)
Theorem process_webhooks_fails_iff rows :
  process_webhooks rows = None <->
  exists r, r ∈ rows /\ has_th r = false /\
    ((length (columns r) < 5)%nat \/
     exists text, columns r !! 2%nat = Some text /\
                  parse_description (normalize text) = None).
Proof.
  induction rows as [|r rows IH].
  - split; [done | by intros (r & ?%elem_of_nil & _)].
  - rewrite process_webhooks_cons. destruct (has_th r) eqn:E.
    + rewrite IH. split.
      * intros (x & Hx & H). exists x. split; [by right | done].
      * intros (x & [->|Hx]%elem_of_cons & Hh & H); [congruence|]. eauto.
    + destruct (row_webhook r) as [w|] eqn:Er; cbn [mbind option_bind].
      * destruct (process_webhooks rows) as [ws|] eqn:Ep; cbn [mbind option_bind].
        -- split; [done|]. intros (x & [->|Hx]%elem_of_cons & Hh & H).
           ++ apply row_webhook_None in H. congruence.
           ++ assert (Some ws = None) as Hc; [|done].
              apply IH. eauto.
        -- split; [intros _ | done].
           destruct (proj1 IH eq_refl) as (x & Hx & H).
           exists x. split; [by right | done].
      * split; [intros _ | done]. exists r. split; [by left|].
        split; [done|]. by apply row_webhook_None.
Qed.

(** X13. When the call succeeds there is one record for each row without
    [th], in the order of the rows: its type is the first cell through
    [strip_html], its channel, tags and activities are the parse of the
    normalised third cell, its creator and date are the fourth and fifth
    cells as they are. *)
Theorem process_webhooks_records rows ws :
  process_webhooks rows = Some ws ->
  Forall2 webhook_of_row (filter (fun r => has_th r = false) rows) ws /\
  length ws = length (filter (fun r => has_th r = false) rows).
Proof.
  intros H%process_webhooks_Some. split.
  - eapply Forall2_impl; [exact H|]. intros r w. apply row_webhook_Some.
  - symmetry. by eapply Forall2_length.
Qed.

Lemma process_webhooks_records_witness :
  let rows := [Row true [];
               Row false [lit " Slack "; lit "x"; lit "Any questions, answers to <b>#help-desk</b>";
                          lit "jo"; lit "2023-01-01"]] in
  let ws := [Webhook (lit "Slack") (lit "#help-desk") [lit "all"]
               [lit "questions"; lit "answers"] (lit "jo") (lit "2023-01-01")] in
  Forall2 webhook_of_row (filter (fun r => has_th r = false) rows) ws /\
  length ws = length (filter (fun r => has_th r = false) rows).
Proof.
  apply (process_webhooks_records
           [Row true [];
            Row false [lit " Slack "; lit "x"; lit "Any questions, answers to <b>#help-desk</b>";
                       lit "jo"; lit "2023-01-01"]]).
  reflexivity.
Defined.

Lemma parse_description_activities d r :
  parse_description d = Some r -> activities r `sublist_of` activity_types.
Proof.
  intros H. apply parse_description_Some in H
    as [(_ & ch & _ & ->) | (_ & rest & ch & _ & _ &
          [(_ & b & _ & ->) | (_ & b & _ & ->)])]; cbn [activities];
    first [done | apply scan_sublist].
Qed.

(** X14. In every record of a successful call, the channel and the tags hold
    no comma, no newline and no carriage return, there is one tag at least,
    no tag holds a space, and the activities are a subsequence of the
    vocabulary. *)
Theorem process_webhooks_record_invariants rows ws w :
  process_webhooks rows = Some ws -> w ∈ ws ->
  (forall c, c ∈ [44; newline; carriage_return] ->
             (c ∉ w_channel w) /\ forall t, t ∈ w_tags w -> c ∉ t) /\
  w_tags w <> [] /\ (forall t, t ∈ w_tags w -> space ∉ t) /\
  w_activities w `sublist_of` activity_types.
Proof.
  intros H%process_webhooks_Some Hw.
  apply list_elem_of_lookup in Hw as [i Hw].
  destruct (Forall2_lookup_r _ _ _ _ _ H Hw) as (r & _ & Hr).
  apply row_webhook_Some in Hr as (_ & (text & _ & Hp) & _).
  destruct (parse_description_chars _ _ Hp) as [Hch Htg].
  destruct (parse_description_tags _ _ Hp) as [Hne Hsp].
  cbn [channel tags] in *. split_and!; [|done..|].
  - assert (forall c, c ∈ [44; newline; carriage_return] ->
                      c ∉ normalize text) as Hclean.
    { destruct (normalize_clean text) as (Hn & Hr & Hc).
      intros c. rewrite !elem_of_cons.
      intros [->|[->|[->|?%elem_of_nil]]]; done. }
    intros c Hc. split; [intros ?%Hch; by apply (Hclean c)|].
    intros t [->|Ht]%Htg.
    + revert Hc. rewrite !elem_of_cons.
      intros [->|[->|[->|?%elem_of_nil]]]; [..|done];
        by apply (bool_decide_unpack _).
    + intros ?%Ht. by apply (Hclean c).
  - by apply parse_description_activities in Hp.
Qed.

Lemma process_webhooks_record_invariants_witness :
  let w := Webhook (lit "Slack") (lit "#help-desk") [lit "all"]
             [lit "questions"; lit "answers"] (lit "jo") (lit "2023-01-01") in
  (forall c, c ∈ [44; newline; carriage_return] ->
             (c ∉ w_channel w) /\ forall t, t ∈ w_tags w -> c ∉ t) /\
  w_tags w <> [] /\ (forall t, t ∈ w_tags w -> space ∉ t) /\
  w_activities w `sublist_of` activity_types.
Proof.
  apply (process_webhooks_record_invariants
           [Row false [lit " Slack "; lit "x"; lit "Any questions, answers to <b>#help-desk</b>";
                       lit "jo"; lit "2023-01-01"]]
           [Webhook (lit "Slack") (lit "#help-desk") [lit "all"]
              [lit "questions"; lit "answers"] (lit "jo") (lit "2023-01-01")]).
  - reflexivity.
  - by left.
Defined.

(** X15. Rows that give no record make the export fail: processing the rows
    and exporting the records fails exactly when the processing fails or
    every row is a header row, so that [webhooks[0]] does not exist. *)
Theorem export_fails_without_records rows :
  (ws ← process_webhooks rows; export_webhooks_to_csv ws) = None <->
  process_webhooks rows = None \/ Forall (fun r => has_th r = true) rows.
Proof.
  assert (forall l : list row,
            filter (fun r => has_th r = false) l = [] <->
            Forall (fun r => has_th r = true) l) as Hfilter.
  { induction l as [|r l IH]; [done|]. destruct (has_th r) eqn:E.
    - rewrite filter_cons_False, IH by (by rewrite E).
      rewrite Forall_cons. tauto.
    - rewrite filter_cons_True by done. split; [done|].
      intros [? _]%Forall_cons. congruence. }
  destruct (process_webhooks rows) as [ws|] eqn:E; cbn [mbind option_bind].
  - apply process_webhooks_Some, Forall2_length in E. rewrite <- Hfilter.
    destruct ws as [|w ws]; cbn.
    + split; [intros _; right | done].
      by destruct (filter _ rows).
    + split; [done | intros [?| Hf]; [done|]]. by rewrite Hf in E.
  - tauto.
Qed.

(** ** The cells of the list fields *)

Section Cells.

Local Abbreviation comma_space := (lit ", ").
Local Abbreviation cat l := (concat (map (fun t : str => t ++ comma_space) l)).

Implicit Types (l : list str) (s x : str).

Lemma foldl_cell acc l :
  foldl (fun tag_row tag => tag_row ++ tag ++ comma_space) acc l =
  acc ++ cat l.
Proof.
  revert acc. induction l as [|x l IH]; intros acc; cbn [foldl map concat].
  - by rewrite app_nil_r.
  - by rewrite IH, <- !app_assoc.
Qed.

Lemma in_chars_comma_space c :
  in_chars comma_space c = false <-> c <> 44 /\ c <> space.
Proof.
  unfold in_chars. cbn. rewrite orb_false_r, orb_false_iff, !N.eqb_neq. done.
Qed.

Lemma lstrip_chars_head chars s c :
  head (lstrip_chars chars s) = Some c -> in_chars chars c = false.
Proof.
  induction s as [|y s IH]; [done|]. simpl.
  destruct (in_chars chars y) eqn:E; [done|]. by intros [= <-].
Qed.

Lemma lstrip_chars_suffix chars s : exists k, s = k ++ lstrip_chars chars s.
Proof.
  induction s as [|c s [k IH]]; [by exists []|]. simpl.
  destruct (in_chars chars c); [|by exists []].
  exists (c :: k). by rewrite IH at 1.
Qed.

Lemma rstrip_chars_head chars s c :
  head (rstrip_chars chars s) = Some c -> head s = Some c.
Proof.
  unfold rstrip_chars. destruct (lstrip_chars_suffix chars (rev s)) as [k Hk].
  intros H. rewrite <- (rev_involutive s), Hk, rev_app_distr.
  by destruct (rev (lstrip_chars chars (rev s))).
Qed.

Lemma rstrip_chars_last chars s c :
  last (rstrip_chars chars s) = Some c -> in_chars chars c = false.
Proof.
  unfold rstrip_chars. intros H. apply (lstrip_chars_head chars (rev s)).
  rewrite <- H. generalize (lstrip_chars chars (rev s)). intros l.
  rewrite rev_alt. symmetry. apply (last_reverse l).
Qed.

(** X16. The cell of a list field never begins or ends with a comma or a
    space, whatever the list holds. *)
Theorem list_cell_ends attribute :
  (forall c, head (list_cell attribute) = Some c -> c <> 44 /\ c <> space) /\
  (forall c, last (list_cell attribute) = Some c -> c <> 44 /\ c <> space).
Proof.
  unfold list_cell, strip_chars. split; intros c H; apply in_chars_comma_space.
  - apply rstrip_chars_head in H. by apply lstrip_chars_head in H.
  - by apply rstrip_chars_last in H.
Qed.

Lemma lstrip_chars_app chars u v :
  lstrip_chars chars (u ++ v) =
  match lstrip_chars chars u with
  | [] => lstrip_chars chars v
  | y :: z => (y :: z) ++ v
  end.
Proof.
  induction u as [|c u IH]; [done|]. simpl. by destruct (in_chars chars c).
Qed.

Lemma rstrip_chars_app chars a b :
  rstrip_chars chars (a ++ b) =
  match rstrip_chars chars b with
  | [] => rstrip_chars chars a
  | y :: z => a ++ y :: z
  end.
Proof.
  unfold rstrip_chars. rewrite rev_app_distr, lstrip_chars_app.
  destruct (lstrip_chars chars (rev b)) as [|y z] eqn:E; [done|].
  rewrite rev_app_distr, rev_involutive.
  destruct (rev (y :: z)) eqn:E'; [|done].
  apply (f_equal (@length _)) in E'. rewrite length_rev in E'. done.
Qed.

Lemma clean_ends_cons c x :
  clean_ends (c :: x) = true -> in_chars comma_space c = false.
Proof.
  unfold clean_ends.
  destruct (last (c :: x)) as [e|] eqn:E; [|by apply last_None in E].
  by intros [?%negb_true_iff _]%andb_true_iff.
Qed.

Lemma clean_ends_rstrip x :
  clean_ends x = true -> rstrip_chars comma_space x = x.
Proof.
  unfold clean_ends. destruct x as [|c x]; [done|].
  destruct (last (c :: x)) as [e|] eqn:E; [|by apply last_None in E].
  intros [_ He%negb_true_iff]%andb_true_iff.
  apply last_Some in E as [x' ->]. unfold rstrip_chars.
  rewrite rev_app_distr. cbn [rev app lstrip_chars]. rewrite He.
  cbn [rev]. by rewrite rev_involutive.
Qed.

Lemma lstrip_cat l :
  Forall (fun x => clean_ends x = true) l ->
  lstrip_chars comma_space (cat l) = cat (ldrop_empty l).
Proof.
  induction 1 as [|x l Hx Hl IH]; [done|]. cbn [map concat ldrop_empty].
  destruct x as [|c x]; [exact IH|].
  apply clean_ends_cons in Hx. cbn [app lstrip_chars]. by rewrite Hx.
Qed.

Lemma rdrop_empty_join l y k :
  rdrop_empty l = y :: k -> str_join comma_space (y :: k) <> [].
Proof.
  intros H. cbn [str_join]. destruct k as [|y' k]; [|by destruct y].
  revert y H. induction l as [|x l IH]; intros y; [done|].
  cbn [rdrop_empty]. destruct (rdrop_empty l) as [|z k'].
  - destruct x; [done|]. by intros [= <-].
  - intros [= <- <-].
Qed.

Lemma rstrip_cat l :
  Forall (fun x => clean_ends x = true) l ->
  rstrip_chars comma_space (cat l) = str_join comma_space (rdrop_empty l).
Proof.
  induction 1 as [|x l Hx Hl IH]; [done|]. cbn [map concat rdrop_empty].
  rewrite <- app_assoc, rstrip_chars_app, (rstrip_chars_app _ comma_space), IH.
  destruct (rdrop_empty l) as [|y k] eqn:E.
  - cbn [str_join]. rewrite (clean_ends_rstrip x Hx). by destruct x.
  - pose proof (rdrop_empty_join _ _ _ E) as Hne.
    destruct (str_join comma_space (y :: k)) as [|c z] eqn:Ej; [done|].
    cbn [str_join app]. rewrite <- Ej. cbn [str_join]. by destruct x.
Qed.

Lemma list_cell_join l :
  Forall (fun x => clean_ends x = true) l ->
  list_cell l = str_join comma_space (rdrop_empty (ldrop_empty l)).
Proof.
  intros Hl. unfold list_cell, strip_chars. rewrite foldl_cell. cbn [app].
  rewrite lstrip_cat, rstrip_cat; [done | | done].
  clear -Hl. induction Hl as [|x l Hx Hl IH]; [done|].
  cbn [ldrop_empty]. destruct x; [done | by constructor].
Qed.

Lemma drop_empty_id l :
  head l <> Some [] -> last l <> Some [] -> rdrop_empty (ldrop_empty l) = l.
Proof.
  intros Hh Hl. assert (ldrop_empty l = l) as ->.
  { destruct l as [|[|c x] l]; done. }
  clear Hh. induction l as [|x l IH]; [done|]. cbn [rdrop_empty].
  destruct l as [|y l].
  - destruct x; done.
  - rewrite IH by (by rewrite last_cons_cons in Hl). by destruct x.
Qed.

(** Splitting a comma-and-space join of comma-free texts gives the texts
    back. *)
Lemma split_str_join l :
  l <> [] -> Forall (fun x => (44 : char) ∉ x) l ->
  split comma_space (str_join comma_space l) = l.
Proof.
  assert (forall x r, (44 : char) ∉ x -> nomatch comma_space x r = true) as Hnm.
  { intros x r Hx. induction x as [|c x IH]; [done|].
    apply not_elem_of_cons in Hx as [Hc Hx].
    cbn [nomatch app]. change comma_space with (44 :: [space]).
    cbn [startswith]. destruct (N.eqb_spec 44 c) as [?|_]; [done|].
    by apply IH. }
  intros Hne Hl. induction Hl as [|x l Hx Hl IH]; [done|]. clear Hne.
  cbn [str_join]. destruct l as [|y l].
  - rewrite <- (app_nil_r x) at 1.
    rewrite split_nomatch, split_nil by by apply Hnm.
    cbn [prepend]. by rewrite app_nil_r.
  - rewrite split_nomatch, split_match by (done || by apply Hnm).
    cbn [prepend]. by rewrite app_nil_r, IH.
Qed.

End Cells.

(** X17. For a list of texts none of which has a comma or a space at either
    end, the cell is the texts joined by ", ", after the empty texts at the
    two ends of the list are dropped. *)
Theorem list_cell_is_join attribute :
  Forall (fun x => clean_ends x = true) attribute ->
  list_cell attribute = str_join (lit ", ") (rdrop_empty (ldrop_empty attribute)).
Proof. apply list_cell_join. Qed.

Lemma list_cell_is_join_witness :
  list_cell [[]; lit "a"; []; lit "b"; []] =
  str_join (lit ", ") (rdrop_empty (ldrop_empty [[]; lit "a"; []; lit "b"; []])).
Proof.
  apply (list_cell_is_join [[]; lit "a"; []; lit "b"; []]).
  apply (bool_decide_unpack _). vm_compute. reflexivity.
Defined.

(** X18. The activities cell of a parsed record is its activities joined by
    ", ". *)
Theorem activities_cell_is_join d r :
  parse_description d = Some r ->
  list_cell (activities r) = str_join (lit ", ") (activities r).
Proof.
  intros H%parse_description_activities.
  assert (forall p, p ∈ activities r -> clean_ends p = true /\ p <> []) as Hp.
  { intros p Hin. pose proof (elem_of_sublist _ _ _ Hin H) as Hv.
    unfold activity_types in Hv.
    repeat (apply elem_of_cons in Hv as [->|Hv]); [..|by apply elem_of_nil in Hv];
      done. }
  rewrite list_cell_join, drop_empty_id; [done | | |].
  - intros E. destruct (activities r) as [|p l]; [done|].
    injection E as ->. by destruct (Hp [] (list_elem_of_here _ _)).
  - intros E%last_Some_elem_of. by destruct (Hp [] E).
  - apply Forall_forall. intros p Hin. by apply Hp.
Qed.

Lemma activities_cell_is_join_witness :
  let r := Parsed (lit "#help-desk") [lit "all"] [lit "questions"; lit "answers"] in
  list_cell (activities r) = str_join (lit ", ") (activities r).
Proof.
  apply (activities_cell_is_join (lit "Any questions answers to #help-desk")).
  reflexivity.
Defined.

(** X19. For a record parsed from a normalised description whose first and
    last tags are not empty, splitting the tags cell on ", " gives the tags
    back. *)
Theorem tags_cell_round_trip text r :
  parse_description (normalize text) = Some r ->
  head (tags r) <> Some [] -> last (tags r) <> Some [] ->
  split (lit ", ") (list_cell (tags r)) = tags r.
Proof.
  intros Hp Hh Hl.
  destruct (parse_description_chars _ _ Hp) as [_ Htg].
  destruct (parse_description_tags _ _ Hp) as [Hne Hsp].
  destruct (normalize_clean text) as (_ & _ & Hcomma).
  assert (forall t, t ∈ tags r -> (44 : char) ∉ t) as Hc.
  { intros t [->|Ht]%Htg; [by apply (bool_decide_unpack _)|].
    by intros ?%Ht. }
  rewrite list_cell_join, drop_empty_id by done || (
    apply Forall_forall; intros t Ht; unfold clean_ends;
    destruct t as [|c t]; [done|];
    destruct (last (c :: t)) as [e|] eqn:E; [|done];
    apply last_Some_elem_of in E;
    assert (forall x, x ∈ c :: t -> in_chars (lit ", ") x = false) as Hx
      by (intros x Hx; apply in_chars_comma_space; split; intros ->;
          [by apply (Hc _ Ht) | by apply (Hsp _ Ht)]);
    by rewrite (Hx c (list_elem_of_here _ _)), (Hx e E)).
  apply split_str_join; [done|]. apply Forall_forall. intros t Ht. by apply Hc.
Qed.

Lemma tags_cell_round_trip_witness :
  let r := Parsed (lit "#ops") [lit "aws"; lit "k8s"] [lit "questions"] in
  split (lit ", ") (list_cell (tags r)) = tags r.
Proof.
  apply (tags_cell_round_trip (lit "Any aws k8s questions, to <b>#ops</b>"));
    [reflexivity | done | done].
Defined.

(** ** The pages *)

Lemma get_webhooks_pages_acc fetch pages acc :
  get_webhooks_pages fetch pages acc =
  ws ← get_webhooks_pages fetch pages []; Some (acc ++ ws).
Proof.
  revert acc. induction pages as [|page pages IH]; intros acc.
  - cbn. by rewrite app_nil_r.
  - cbn [get_webhooks_pages]. destruct (fetch page) as [rows|]; [|done].
    cbn [mbind option_bind].
    destruct (process_webhooks rows) as [found|]; [|done].
    cbn [mbind option_bind app]. rewrite (IH (acc ++ found)), (IH found).
    destruct (get_webhooks_pages fetch pages []); [|done].
    cbn [mbind option_bind]. by rewrite app_assoc.
Qed.

Lemma get_webhooks_pages_concat fetch pages :
  get_webhooks_pages fetch pages [] =
  rows ← mapM fetch pages; process_webhooks (concat rows).
Proof.
  induction pages as [|page pages IH]; [done|].
  cbn [get_webhooks_pages mapM]. destruct (fetch page) as [rows|]; [|done].
  cbn [mbind option_bind app].
  destruct (process_webhooks rows) as [found|] eqn:E; cbn [mbind option_bind].
  - rewrite get_webhooks_pages_acc, IH.
    destruct (mapM fetch pages) as [rest|]; [|done].
    cbn [mbind option_bind mret option_ret concat].
    by rewrite process_webhooks_concat, E.
  - destruct (mapM fetch pages) as [rest|]; [|done].
    cbn [mbind option_bind mret option_ret concat].
    by rewrite process_webhooks_concat, E.
Qed.

(** X20. Paging changes nothing: [get_webhooks] returns what
    [process_webhooks] returns on the rows of the pages 1 to [page_count] put
    end to end, and fails when the page count, a page or a row fails. *)
Theorem get_webhooks_all_rows int pagination fetch :
  get_webhooks int pagination fetch =
  page_count ← get_page_count int pagination;
  rows ← mapM fetch (seqZ 1 page_count);
  process_webhooks (concat rows).
Proof.
  unfold get_webhooks. destruct (get_page_count int pagination); [|done].
  apply get_webhooks_pages_concat.
Qed.

(** X21. With fewer than two pagination links, one page is read, the
    first, and the conversion to an integer is not called. *)
Theorem get_webhooks_single_page int links fetch :
  (length links < 2)%nat ->
  get_webhooks int (Some links) fetch =
  rows ← fetch 1%Z; process_webhooks rows.
Proof.
  intros Hl. unfold get_webhooks.
  assert (get_page_count int (Some links) = Some 1%Z) as ->.
  { unfold get_page_count. cbn [mbind option_bind].
    rewrite <- length_rev in Hl.
    destruct (rev links) as [|? [|? ?]]; [done..|]. simpl in Hl. lia. }
  cbn [mbind option_bind]. rewrite get_webhooks_pages_concat.
  change (seqZ 1 1) with [1%Z]. cbn [mapM].
  destruct (fetch 1%Z) as [rows|]; [|done].
  cbn [mbind option_bind mret option_ret concat]. by rewrite app_nil_r.
Qed.

Lemma get_webhooks_single_page_witness :
  get_webhooks (fun _ => None) (Some [lit "1"]) (fun _ => Some [Row true []]) =
  rows ← (fun _ : Z => Some [Row true []]) 1%Z; process_webhooks rows.
Proof.
  apply (get_webhooks_single_page (fun _ => None) [lit "1"]
           (fun _ => Some [Row true []])).
  simpl. lia.
Defined.
